(** * knieriem/svg: style classes and attribute serialisation

    A shallow embedding of the Go package [svg] (src/text.go with the
    document, the styling and the list attributes; src/shapes.go with the
    shapes and the transformations) together with the few functions of the
    Go standard library it calls, followed by the properties of
    [Document.MakeStyle], of the list-valued attribute marshalers and of
    the shape constructors.

    Conventions of the embedding:
    - a Go [string] is a [string] (a sequence of bytes), [+] is [+:+];
    - a Go [int] is a [Z] kept in the 64-bit range, arithmetic wraps;
    - a Go [float64] is a [spec_float] of precision 53 and exponent bound
      1024, the conversion [float64(i)] rounds to nearest even;
    - a Go [map[string]string] is [option (gmap string string)]: [None] is
      the nil map, which can be read but not written;
    - a pointer receiver that is mutated becomes explicit state passing, a
      run-time panic becomes [None] in the option monad;
    - a struct is a record in a module of its name, so that [Styling.Style]
      and [Document.Style] are the two fields they are in Go. *)

From Stdlib Require Import ZArith String Ascii List DecimalString SpecFloat.
From Stdlib Require DecimalPos DecimalZ.
From stdpp Require Import gmap strings list fin_maps.

Set Default Proof Using "Type".

(* ================================================================== *)
(** * The Go standard library, as far as the package uses it *)
(* ================================================================== *)

(** ** Package strings *)
Module strings.

  (** [func HasSuffix(s, suffix string) bool]:
      [len(s) >= len(suffix) && s[len(s)-len(suffix):] == suffix]. *)
Definition HasSuffix (s suffix : string) : bool :=
  bool_decide (String.length suffix ≤ String.length s)
  && bool_decide (substring (String.length s - String.length suffix)
                            (String.length suffix) s = suffix).

  (** [func TrimSuffix(s, suffix string) string]:
      [if HasSuffix(s, suffix) { return s[:len(s)-len(suffix)] }; return s]. *)
Definition TrimSuffix (s suffix : string) : string :=
  if HasSuffix s suffix
  then substring 0 (String.length s - String.length suffix) s
  else s.

  (** [func Join(elems []string, sep string) string]: the empty slice gives
      the empty string, a single element is returned as it is, otherwise
      the builder receives [elems[0]] and then [sep], [s] for every further
      element [s]. *)
Definition Join (elems : list string) (sep : string) : string :=
  match elems with
  | [] => ""
  | [e] => e
  | e :: rest => foldl (λ b s, (b +:+ sep) +:+ s) e rest
  end.

End strings.

(** ** Package strconv *)
Module strconv.

  (** [const IntSize]: the size in bits of an [int]. *)
Definition IntSize : Z := 64.

  (** [func Itoa(i int) string]: the decimal numeral of [i], with a leading
      minus sign for negative values. *)
Definition Itoa (i : Z) : string := NilZero.string_of_int (Z.to_int i).

End strconv.

(** The value an [int] computation is reduced to: two's complement
    wrap-around on [strconv.IntSize] bits. *)
Definition int_wrap (z : Z) : Z :=
  (z + 2 ^ (strconv.IntSize - 1)) `mod` 2 ^ strconv.IntSize
  - 2 ^ (strconv.IntSize - 1).

Definition int_max : Z := 2 ^ (strconv.IntSize - 1) - 1.

(** [float64]: IEEE 754 binary64. *)
Definition float64 : Type := spec_float.

(** The conversion [float64(i)] of an [int]. *)
Definition float64_of_int (i : Z) : float64 := binary_normalize 53 1024 i 0 false.

Arguments float64_of_int : simpl never.

(** ** Package encoding/xml: names and attributes *)
Module xml.

Record Name := mkName { Space : string; Local : string }.

Record Attr := mkAttr { AttrName : Name; Value : string }.

  (** The zero value [var a xml.Attr]. *)
Definition zeroAttr : Attr := mkAttr (mkName "" "") "".

End xml.

(** The [error] results of the package are always [nil]. *)
Inductive error : Type := errorString (msg : string).

(** ** Go maps from strings to strings *)

Abbreviation gomap := (option (gmap string string)).

(** [v, ok := m[k]]: reading the nil map finds nothing. *)
Definition map_get (m : gomap) (k : string) : option string :=
  m ≫= (λ t, t !! k).

(** [m[k] = v]: assignment to an entry of the nil map panics. *)
Definition map_set (m : gomap) (k v : string) : option gomap :=
  t ← m; Some (Some (<[k := v]> t)).

(* ================================================================== *)
(** * Package svg: the data model *)
(* ================================================================== *)

(** ** text.go: configuration and styling *)

Module Conf.

Record t := mk {
  GenerateEmbeddedStylesheet : bool;
  StylesheetUnifyStyles : bool;
  ScopeStyleDefinitions : bool;
  Embedded : bool
}.

  (** The zero value [&Conf{}]. *)
Definition zero : t := mk false false false false.

End Conf.

Module Styling.

Record t := mk {
  Class : string;   (* `xml:"class,attr,omitempty"` *)
  Style : string    (* `xml:"style,attr,omitempty"` *)
}.

Definition zero : t := mk "" "".

Definition SetStyle (st : t) (style : string) : t :=
  mk (Class st) (strings.TrimSuffix style ";").

Definition SetClass (st : t) (class : string) : t :=
  mk class (Style st).

Definition WithStyle (st : t) (s : t) : t := s.

End Styling.

(** ** shapes.go: transformations *)

(** [type TransformArg interface { String() string }], implemented by
    [intArg] and [floatArg]. *)
Inductive TransformArg : Type :=
  | intArg (i : Z)
  | floatArg (f : float64).

Module Transform.

Record t := mk {
  Name : string;
  Args : list TransformArg
}.

End Transform.

(** [type TransformList []Transform]; the nil slice is the empty list. *)
Abbreviation TransformList := (list Transform.t).

Definition TransformList_append (tl : TransformList) (t : Transform.t) : TransformList :=
  tl ++ [t].

Definition translateInt (x y : Z) : Transform.t :=
  Transform.mk "translate" [intArg x; intArg y].

Definition ftrans (name : string) (f : float64) : Transform.t :=
  Transform.mk name [floatArg f].

Definition TranslateInt (tl : TransformList) (x y : Z) : TransformList :=
  TransformList_append tl (translateInt x y).

Definition RotateOrig (tl : TransformList) (degrees : float64) : TransformList :=
  TransformList_append tl (ftrans "rotate" degrees).



(** ** text.go: objects, lengths *)

Module Object.

Record t := mk {
  ID : string;                      (* `xml:"id,attr,omitempty"` *)
  TransformList : list Transform.t; (* `xml:"transform,attr,omitempty"` *)
  Styling : Styling.t
}.

Definition zero : t := mk "" [] Styling.zero.

Definition SetID (o : t) (id : string) : t :=
  mk id (TransformList o) (Styling o).

End Object.

(** [type Length interface { xml.MarshalerAttr }] and its four
    implementations. *)
Inductive Length : Type :=
  | number (f : float64)
  | emUnits (f : float64)
  | exUnits (f : float64)
  | percentage (f : float64).

(** ** shapes.go: basic shapes *)

Module ShapeObject.

Record t := mk {
  Object : Object.t;
  PathLength : float64   (* `xml:"pathLength,attr,omitempty"` *)
}.

Definition zero : t := mk Object.zero (S754_zero false).

End ShapeObject.

Module line.

Record t := mk {
  X1 : float64; Y1 : float64; X2 : float64; Y2 : float64;
  ShapeObject : ShapeObject.t
}.

Definition XMLName : string := "line".

End line.

Module Rect.

Record t := mk {
  X : float64; Y : float64; Width : float64; Height : float64;
  Rx : float64; Ry : float64;
  ShapeObject : ShapeObject.t
}.

Definition XMLName : string := "rect".

End Rect.

Module circle.

Record t := mk {
  X : float64; Y : float64; R : float64;
  ShapeObject : ShapeObject.t
}.

Definition XMLName : string := "circle".

End circle.

Module ellipse.

Record t := mk {
  X : float64;    (* `xml:"cx,attr"` *)
  Y : float64;    (* `xml:"cy,attr"` *)
  Rx : float64;   (* `xml:"rx,attr"` *)
  Ry : float64;   (* `xml:"ry,attr"` *)
  ShapeObject : ShapeObject.t
}.

  (** [XMLName xml.Name `xml:"circle"`]: the tag of the [XMLName] field names
      the element. *)
Definition XMLName : string := "circle".

  (** The attribute names given by the field tags, in declaration order,
      with the field each one marshals; none of them is [omitempty]. *)
Definition attrs (e : t) : list (string * float64) :=
  [("cx", X e); ("cy", Y e); ("rx", Rx e); ("ry", Ry e)].

End ellipse.

(** [type Points [][2]float64]. *)
Abbreviation Points := (list (float64 * float64)).

Definition Points_AddInt (pts : Points) (x y : Z) : Points :=
  pts ++ [(float64_of_int x, float64_of_int y)].

Module PolyLine.

Record t := mk {
  Points : list (float64 * float64);   (* `xml:"points,attr"` *)
  ShapeObject : ShapeObject.t
}.

Definition XMLName : string := "polyline".

Definition zero : t := mk [] ShapeObject.zero.

End PolyLine.

Module polygon.

Record t := mk { PolyLine : PolyLine.t }.

Definition XMLName : string := "polygon".

End polygon.

Module path.

Record t := mk {
  D : string;   (* `xml:"d,attr,omitempty"` *)
  ShapeObject : ShapeObject.t
}.

Definition XMLName : string := "path".

End path.

Module use.

Record t := mk {
  X : float64; Y : float64; Href : string;
  Object : Object.t
}.

Definition XMLName : string := "use".

End use.

Module title.

Record t := mk { Data : string }.

Definition XMLName : string := "title".

End title.

(** ** text.go: containers and the element list *)

Module Container.

  (** [type Container struct { Object; ElemList }], over the type of the
      elements. *)
Record t_ (E : Type) := mk {
  Object : Object.t;
  ElemList : list E
}.

Arguments mk {E} _ _.
Arguments Object {E} _.
Arguments ElemList {E} _.

End Container.

(** The values stored in an [ElemList] ([[]interface{}]): pointers to the
    structs the constructors of the package allocate.  [Group] and [Defs]
    hold a [Container]. *)
#[local] Set Warnings "-register-all".
Inductive Elem : Type :=
  | p_line (l : line.t)
  | p_Rect (r : Rect.t)
  | p_circle (c : circle.t)
  | p_ellipse (e : ellipse.t)
  | p_PolyLine (l : PolyLine.t)
  | p_polygon (p : polygon.t)
  | p_path (p : path.t)
  | p_use (u : use.t)
  | p_title (t : title.t)
  | p_Group (g : Container.t_ Elem)
  | p_Defs (g : Container.t_ Elem).

#[local] Set Warnings "register-all".

Abbreviation ElemList := (list Elem).

(** The element name the encoder reads from the tag of the [XMLName] field
    of the struct behind the pointer. *)
Definition XMLName (e : Elem) : string :=
  match e with
  | p_line _ => line.XMLName
  | p_Rect _ => Rect.XMLName
  | p_circle _ => circle.XMLName
  | p_ellipse _ => ellipse.XMLName
  | p_PolyLine _ => PolyLine.XMLName
  | p_polygon _ => polygon.XMLName
  | p_path _ => path.XMLName
  | p_use _ => use.XMLName
  | p_title _ => title.XMLName
  | p_Group _ => "g"
  | p_Defs _ => "defs"
  end.

(** [func (el *ElemList) append(i interface{})]. *)
Definition ElemList_append (el : ElemList) (i : Elem) : ElemList := el ++ [i].

(** The constructors return a pointer into the element they appended; the
    model returns the new list with the position of that element in it. *)
Definition LineInt (el : ElemList) (x1 y1 x2 y2 : Z) : ElemList * nat :=
  let l := line.mk (float64_of_int x1) (float64_of_int y1)
                   (float64_of_int x2) (float64_of_int y2) ShapeObject.zero in
  (ElemList_append el (p_line l), length el).

Definition RectInt (el : ElemList) (x y w h : Z) : ElemList * nat :=
  let r := Rect.mk (float64_of_int x) (float64_of_int y)
                   (float64_of_int w) (float64_of_int h)
                   (S754_zero false) (S754_zero false) ShapeObject.zero in
  (ElemList_append el (p_Rect r), length el).

Definition CircleInt (el : ElemList) (cx cy r : Z) : ElemList * nat :=
  let c := circle.mk (float64_of_int cx) (float64_of_int cy)
                     (float64_of_int r) ShapeObject.zero in
  (ElemList_append el (p_circle c), length el).

Definition EllipseInt (el : ElemList) (cx cy rx ry : Z) : ElemList * nat :=
  let e := ellipse.mk (float64_of_int cx) (float64_of_int cy)
                      (float64_of_int rx) (float64_of_int ry) ShapeObject.zero in
  (ElemList_append el (p_ellipse e), length el).

Definition PolyLine (el : ElemList) : ElemList * nat :=
  (ElemList_append el (p_PolyLine PolyLine.zero), length el).

Definition Polygon (el : ElemList) : ElemList * nat :=
  (ElemList_append el (p_polygon (polygon.mk PolyLine.zero)), length el).

Definition Path (el : ElemList) (d : string) : ElemList * nat :=
  (ElemList_append el (p_path (path.mk d ShapeObject.zero)), length el).

Definition UseObjectInt (el : ElemList) (x y : Z) (id : string) : ElemList * nat :=
  let u := use.mk (float64_of_int x) (float64_of_int y) ("#" +:+ id) Object.zero in
  (ElemList_append el (p_use u), length el).

Definition Title (el : ElemList) (content : string) : ElemList :=
  ElemList_append el (p_title (title.mk content)).

Definition Group (el : ElemList) : ElemList * nat :=
  (ElemList_append el (p_Group (Container.mk Object.zero [])), length el).

Definition Defs (el : ElemList) : ElemList * nat :=
  (ElemList_append el (p_Defs (Container.mk Object.zero [])), length el).

(** ** text.go: the document *)

Module styles.

  (** The anonymous struct of the field [Document.styles]. *)
Record t := mk {
  defMap : gomap;     (* style text -> class name *)
  classMap : gomap;   (* class name -> style text *)
  nConflict : Z
}.

Definition zero : t := mk None None 0.

End styles.

Module Document.

  (** [conf *Conf] is a pointer: [None] is nil.  The document reads the
      configuration through it at every call. *)
Record t := mk {
  ViewBox : list Z;
  Width : option Length;
  Height : option Length;
  Style : string;
  Container : Container.t_ Elem;
  styles : styles.t;
  NameSpace : string;
  conf : option Conf.t
}.

  (** The zero value [new(Document)]. *)
Definition zero : t :=
  mk [] None None "" (Container.mk Object.zero []) styles.zero "" None.

  (** The promoted field [d.ID] of the embedded [Container.Object]. *)
Definition ID (d : t) : string := Object.ID (Container.Object (Container d)).

Definition with_Style (d : t) (style : string) : t :=
  mk (ViewBox d) (Width d) (Height d) style (Container d) (styles d)
     (NameSpace d) (conf d).

Definition with_styles (d : t) (s : styles.t) : t :=
  mk (ViewBox d) (Width d) (Height d) (Style d) (Container d) s
     (NameSpace d) (conf d).

Definition with_NameSpace (d : t) (ns : string) : t :=
  mk (ViewBox d) (Width d) (Height d) (Style d) (Container d) (styles d)
     ns (conf d).

Definition with_conf (d : t) (c : option Conf.t) : t :=
  mk (ViewBox d) (Width d) (Height d) (Style d) (Container d) (styles d)
     (NameSpace d) c.

  (** [d.SetID(id)], promoted from the embedded [Container]. *)
Definition SetID (d : t) (id : string) : t :=
  mk (ViewBox d) (Width d) (Height d) (Style d)
     (Container.mk (Object.SetID (Container.Object (Container d)) id)
                   (Container.ElemList (Container d)))
     (styles d) (NameSpace d) (conf d).

End Document.

Definition nameSpace : string := "http://www.w3.org/2000/svg".

(** [func NewDocument(c *Conf) *Document]. *)
Definition NewDocument (c : option Conf.t) : Document.t :=
  let d := Document.zero in
  let c := match c with None => Conf.zero | Some c => c end in
  let d := if negb (Conf.Embedded c) then Document.with_NameSpace d nameSpace else d in
  Document.with_conf d (Some c).

(** [func (d *Document) MakeStyle(name, style string) Styling]: the result
    is the returned [Styling] with the document after the call, or [None]
    when the call panics (a nil [conf], a write to a nil map). *)
Definition MakeStyle (d : Document.t) (name style : string)
    : option (Styling.t * Document.t) :=
  conf ← Document.conf d;
  if negb (Conf.GenerateEmbeddedStylesheet conf) then
    if bool_decide (style ≠ "") then
      Some (Styling.mk "" style, d)
    else
      Some (Styling.mk name "", d)
  else
    let s := Document.styles d in
    let s :=
      match styles.defMap s with
      | None => styles.mk (Some ∅) (Some ∅) (styles.nConflict s)
      | Some _ => s
      end in
    match map_get (styles.defMap s) style with
    | Some class => Some (Styling.mk class "", Document.with_styles d s)
    | None =>
      let '(name, s) :=
        match map_get (styles.classMap s) name with
        | Some _ =>
          let n := int_wrap (styles.nConflict s + 1) in
          (name +:+ strconv.Itoa n,
           styles.mk (styles.defMap s) (styles.classMap s) n)
        | None => (name, s)
        end in
      defMap ← (if Conf.StylesheetUnifyStyles conf
                then map_set (styles.defMap s) style name
                else Some (styles.defMap s));
      classMap ← map_set (styles.classMap s) name style;
      let s := styles.mk defMap classMap (styles.nConflict s) in
      let class := name in
      (* update style *)
      let Style := Document.Style d in
      let Style := if bool_decide (Style ≠ "") then Style +:+ " " else Style in
      let Style :=
        if Conf.ScopeStyleDefinitions conf && bool_decide (Document.ID d ≠ "")
        then Style +:+ (("#" +:+ Document.ID d) +:+ " ")
        else Style in
      let Style :=
        Style +:+ (((("." +:+ name) +:+ " {") +:+ strings.TrimSuffix style ";") +:+ "}") in
      Some (Styling.mk class "",
            Document.with_Style (Document.with_styles d s) Style)
    end.

(** A sequence of [MakeStyle] calls on one document, each given by its
    [(name, style)] arguments; the classes come back in call order. *)
Fixpoint MakeStyles (d : Document.t) (calls : list (string * string))
    : option (list Styling.t * Document.t) :=
  match calls with
  | [] => Some ([], d)
  | (name, style) :: calls =>
    '(st, d) ← MakeStyle d name style;
    '(sts, d) ← MakeStyles d calls;
    Some (st :: sts, d)
  end.

(* ================================================================== *)
(** * Package svg: attribute marshalers *)
(* ================================================================== *)

(** ** Slices written by index and range loops *)

(** [s[i] = v] on a slice: an index out of range panics. *)
Definition slice_set {A} (s : list A) (i : nat) (v : A) : option (list A) :=
  if decide (i < length s) then Some (<[i := v]> s) else None.

(** [s[i]] on a slice: an index out of range panics. *)
Definition slice_get {A} (s : list A) (i : nat) : option A := s !! i.

(** [for i, x := range l { body }] over a loop state, from index [i]. *)
Fixpoint for_range {A St} (body : St → nat → A → option St)
    (st : St) (i : nat) (l : list A) : option St :=
  match l with
  | [] => Some st
  | x :: l => st ← body st i x; for_range body st (S i) l
  end.

Section Marshal.

  (** [strconv.FormatFloat(f, fmt, prec, bitSize)] of the Go standard
      library is a parameter of the marshalers. *)
  Variable FormatFloat : float64 → ascii → Z → Z → string.

  (** [func makeListAttr(name xml.Name, values []string) (xml.Attr, error)]. *)
Definition makeListAttr (name : xml.Name) (values : list string)
    : xml.Attr * option error :=
  let a := xml.zeroAttr in
  let a := xml.mkAttr name (xml.Value a) in
  let a := xml.mkAttr (xml.AttrName a) (strings.Join values " ") in
  (a, None).

  (** [func (ints Ints) MarshalXMLAttr(name xml.Name) (xml.Attr, error)]. *)
Definition Ints_MarshalXMLAttr (ints : list Z) (name : xml.Name)
    : option (xml.Attr * option error) :=
  let s := replicate (length ints) "" in
  s ← for_range (λ s i v, slice_set s i (strconv.Itoa v)) s 0 ints;
  Some (makeListAttr name s).

  (** [func (f Floats64) MarshalXMLAttr(name xml.Name) (xml.Attr, error)]. *)
Definition Floats64_MarshalXMLAttr (f : list float64) (name : xml.Name)
    : option (xml.Attr * option error) :=
  let s := replicate (length f) "" in
  s ← for_range (λ s i v, slice_set s i (FormatFloat v "g"%char (-1)%Z 64%Z)) s 0 f;
  Some (makeListAttr name s).

  (** [func (pts Points) MarshalXMLAttr(name xml.Name) (xml.Attr, error)]. *)
Definition Points_MarshalXMLAttr (pts : Points) (name : xml.Name)
    : option (xml.Attr * option error) :=
  let s := replicate (length pts) "" in
  let ff := λ f : float64, FormatFloat f "g"%char (-1)%Z 64%Z in
  s ← for_range (λ s i pt, slice_set s i ((ff (fst pt) +:+ ",") +:+ ff (snd pt)))
                s 0 pts;
  Some (makeListAttr name s).

  (** The method [String() string] of [intArg] and of [floatArg]. *)
Definition TransformArg_String (a : TransformArg) : string :=
  match a with
  | intArg i => strconv.Itoa i
  | floatArg f => FormatFloat f "g"%char (-1)%Z 64%Z
  end.

  (** [func (tl TransformList) MarshalXMLAttr(name xml.Name) (xml.Attr, error)].
      The loop state is the pair of the result slice [s] and of the
      argument buffer [args], which every iteration truncates and refills. *)
Definition TransformList_MarshalXMLAttr (tl : TransformList) (name : xml.Name)
    : option (xml.Attr * option error) :=
  let s := replicate (length tl) "" in
  let args := replicate 8 "" in
  '(s, _) ← for_range
    (λ '(s, args) i t,
       let args := take 0 args in
       args ← for_range
         (λ args ia _,
            a ← slice_get (Transform.Args t) ia;
            Some (args ++ [TransformArg_String a]))
         args 0 (Transform.Args t);
       s ← slice_set s i
             (((Transform.Name t +:+ "(") +:+ strings.Join args ",") +:+ ")");
       Some (s, args))
    (s, args) 0 tl;
  Some (makeListAttr name s).

  (** [func marshalLengthAttr(name xml.Name, f float64, unit string)]. *)
Definition marshalLengthAttr (name : xml.Name) (f : float64) (unit : string)
    : xml.Attr * option error :=
  let a := xml.zeroAttr in
  let a := xml.mkAttr name (xml.Value a) in
  let a := xml.mkAttr (xml.AttrName a) (FormatFloat f "g"%char (-1)%Z 64%Z +:+ unit) in
  (a, None).

  (** The method [MarshalXMLAttr] of the four [Length] types. *)
Definition Length_MarshalXMLAttr (l : Length) (name : xml.Name)
    : xml.Attr * option error :=
  match l with
  | number n => marshalLengthAttr name n ""
  | emUnits u => marshalLengthAttr name u "em"
  | exUnits u => marshalLengthAttr name u "ex"
  | percentage p => marshalLengthAttr name p "%"
  end.

End Marshal.

(** A formatter to run the marshalers on examples.  It follows
    [strconv.FormatFloat(f, 'g', -1, 64)] on the zeros, on infinities and
    NaN, and on the integral values of magnitude below 10^6, which Go
    prints as their decimal numeral without exponent; on every other
    value it gives the empty string and is not a model of Go. *)
Definition FormatFloat_integral (f : float64) (fmt : ascii) (prec bitSize : Z)
    : string :=
  match f with
  | S754_zero s => if s then "-0" else "0"
  | S754_infinity s => if s then "-Inf" else "+Inf"
  | S754_nan => "NaN"
  | S754_finite s m e =>
    let v := Z.shiftl (Z.pos m) e in
    let integral := bool_decide (0 ≤ e)%Z
                    || bool_decide (Z.pos m `mod` 2 ^ (- e) = 0)%Z in
    if integral && bool_decide (v < 10 ^ 6)%Z
    then (if s then "-" else "") +:+ strconv.Itoa v
    else ""
  end.

(* ================================================================== *)
(** * Definitions that follow the specification's wording *)
(* ================================================================== *)

(** The functional-call string of one operation: the name, then the
    arguments joined by a comma and no space between parentheses. *)
Definition spec_call_string (FormatFloat : float64 → ascii → Z → Z → string)
    (t : Transform.t) : string :=
  Transform.Name t +:+ "(" +:+
  String.concat "," (TransformArg_String FormatFloat <$> Transform.Args t) +:+ ")".

(** A coordinate pair: the two numbers joined by a comma and no space. *)
Definition spec_pair_string (FormatFloat : float64 → ascii → Z → Z → string)
    (pt : float64 * float64) : string :=
  FormatFloat (fst pt) "g"%char (-1)%Z 64%Z +:+ "," +:+ FormatFloat (snd pt) "g"%char (-1)%Z 64%Z.

(** The pieces of a string between its space characters (as many pieces
    as spaces plus one): what a reader of a space-separated list sees. *)
Fixpoint space_fields (s : string) : list string :=
  match s with
  | EmptyString => [""]
  | String c s =>
    if bool_decide (c = " "%char) then "" :: space_fields s
    else match space_fields s with
         | [] => [String c ""]
         | w :: ws => String c w :: ws
         end
  end.

(** A string without space character. *)
Fixpoint space_free (s : string) : bool :=
  match s with
  | EmptyString => true
  | String c s => bool_decide (c ≠ " "%char) && space_free s
  end.

(** The rule of the embedded stylesheet for a class and a style text, with
    the ID selector in front when one is given. *)
Definition spec_rule (scope : option string) (class style : string) : string :=
  match scope with Some id => "#" +:+ id +:+ " " | None => "" end +:+
  "." +:+ class +:+ " {" +:+ strings.TrimSuffix style ";" +:+ "}".

(** Documents on which [MakeStyle] is called: built by [NewDocument], so
    with a configuration, with the two maps of the style table allocated
    together, and with a counter that is an [int]. *)
Definition wf_Document (d : Document.t) : Prop :=
  is_Some (Document.conf d) ∧
  (is_Some (styles.defMap (Document.styles d)) ↔
   is_Some (styles.classMap (Document.styles d))) ∧
  (- 2 ^ 63 ≤ styles.nConflict (Document.styles d) ≤ int_max)%Z.

(** The separator and the scope prefix [MakeStyle] puts in front of a new
    rule. *)
Definition rule_separator (d : Document.t) : string :=
  if bool_decide (Document.Style d ≠ "") then " " else "".

Definition rule_scope (conf : Conf.t) (d : Document.t) : option string :=
  if Conf.ScopeStyleDefinitions conf && bool_decide (Document.ID d ≠ "")
  then Some (Document.ID d) else None.

(** The class name [MakeStyle] registers for a requested name, and the
    counter after the call. *)
Definition assigned_class (d : Document.t) (name : string) : string :=
  match map_get (styles.classMap (Document.styles d)) name with
  | Some _ =>
    name +:+ strconv.Itoa (int_wrap (styles.nConflict (Document.styles d) + 1))
  | None => name
  end.

Definition next_nConflict (d : Document.t) (name : string) : Z :=
  match map_get (styles.classMap (Document.styles d)) name with
  | Some _ => int_wrap (styles.nConflict (Document.styles d) + 1)
  | None => styles.nConflict (Document.styles d)
  end.

(** ** Documents used in the examples *)

(** A document in which the class ["a"] is registered for ["fill:red;"]. *)
Definition doc_with_a (conf : Conf.t) : Document.t :=
  match MakeStyle (NewDocument (Some conf)) "a" "fill:red;" with
  | Some (_, d) => d
  | None => NewDocument (Some conf)
  end.

(** A scoped document that already has a stylesheet text. *)
Definition doc_scoped : Document.t :=
  Document.with_Style
    (Document.SetID (NewDocument (Some (Conf.mk true false true false))) "doc")
    ".x {fill:red}".

(** A document whose configuration asks for scoped definitions, without
    identifier. *)
Definition doc_scoped_without_ID : Document.t :=
  NewDocument (Some (Conf.mk true false true false)).

(* ================================================================== *)
(** * Package svg: text objects (text.go) *)
(* ================================================================== *)

(** [type TextAnchor string], [type LengthAdjust string] and their
    constants. *)
Definition AnchorMiddle : string := "middle".
Definition AnchorEnd : string := "end".
Definition Spacing : string := "spacing".
Definition SpacingAndGlyphs : string := "spacingAndGlyphs".

(** An element of [TextData] ([[]interface{}]): the two cases of the type
    switch in [TextData.MarshalXML], a [string] or a [*tspan]. *)
Inductive TextDatum (T : Type) : Type :=
  | chardata (x : string)
  | p_tspan (x : T).

Arguments chardata {T} _.
Arguments p_tspan {T} _.

Module TextObject.

  (** [type TextObject struct]; a [tspan] is a [TextObject] under the
      element name [tspan], so the data of a text object holds text
      objects. *)
#[local] Set Warnings "-register-all".
Inductive t : Type := mk {
  X : float64;
  Y : float64;
  Dx : option Length;
  Dy : option Length;
  TextAnchor : string;
  TextLength : option Length;
  LengthAdjust : string;
  Rotate : list float64;
  Object : Object.t;
  Data : list (TextDatum t);
  restorePrefix : string;
  restoreIndent : string
}.
#[local] Set Warnings "register-all".

  (** The zero value, as [new(tspan)] holds it. *)
Definition zero : t :=
  mk (S754_zero false) (S754_zero false) None None "" None "" [] Object.zero
     [] "" "".

Definition with_Data (o : t) (data : list (TextDatum t)) : t :=
  mk (X o) (Y o) (Dx o) (Dy o) (TextAnchor o) (TextLength o) (LengthAdjust o)
     (Rotate o) (Object o) data (restorePrefix o) (restoreIndent o).

Definition with_restore (o : t) (prefix indent : string) : t :=
  mk (X o) (Y o) (Dx o) (Dy o) (TextAnchor o) (TextLength o) (LengthAdjust o)
     (Rotate o) (Object o) (Data o) prefix indent.

  (** [func (t *TextObject) Anchor(a TextAnchor) *TextObject]. *)
Definition Anchor (o : t) (a : string) : t :=
  mk (X o) (Y o) (Dx o) (Dy o) a (TextLength o) (LengthAdjust o)
     (Rotate o) (Object o) (Data o) (restorePrefix o) (restoreIndent o).

  (** [func (t *TextObject) AddSpan(content string) *TextObject]: the
      parent after the call, with the position in its data of the span
      the returned pointer is to. *)
Definition AddSpan (o : t) (content : string) : t * nat :=
  let ts := zero in
  let ts := if bool_decide (content ≠ "")
            then with_Data ts (Data ts ++ [chardata content]) else ts in
  let ts := with_restore ts (restorePrefix o) (restoreIndent ts) in
  let ts := with_restore ts (restorePrefix ts) (restoreIndent o) in
  (with_Data o (Data o ++ [p_tspan ts]), length (Data o)).

  (** [func (t *TextObject) XMLIndentHint(prefix, indent string) *TextObject]. *)
Definition XMLIndentHint (o : t) (prefix indent : string) : t :=
  with_restore o prefix indent.

  (** [func (t *TextObject) AddText(content string) *TextObject]. *)
Definition AddText (o : t) (content : string) : t :=
  with_Data o (Data o ++ [chardata content]).

  (** The span at a position of the data. *)
Definition span_at (o : t) (pos : nat) : option t :=
  match Data o !! pos with
  | Some (p_tspan ts) => Some ts
  | _ => None
  end.

End TextObject.

(** [type TextData []interface{}]. *)
Abbreviation TextData := (list (TextDatum TextObject.t)).

Section TextDataMarshal.

  (** The [*xml.Encoder] of the Go standard library is a parameter: its
      state, and the three methods [TextData.MarshalXML] calls on it. *)
  Variable Encoder : Type.
  Variable EncodeToken_CharData : Encoder → string → Encoder * option error.
  Variable Indent : Encoder → string → string → Encoder.
  Variable Encode_tspan : Encoder → TextObject.t → Encoder * option error.

  (** [func (list TextData) MarshalXML(e *xml.Encoder, start xml.StartElement) error]:
      the encoder after the call and the returned error. *)
Fixpoint TextData_MarshalXML (list : TextData) (e : Encoder)
    : Encoder * option error :=
  match list with
  | [] => (e, None)
  | d :: list =>
    let '(e, err) :=
      match d with
      | chardata x => EncodeToken_CharData e x
      | p_tspan x =>
        let e := if bool_decide (TextObject.restoreIndent x ≠ "")
                 then Indent e "" "" else e in
        let '(e, err) := Encode_tspan e x in
        let e := if bool_decide (TextObject.restoreIndent x ≠ "")
                 then Indent e (TextObject.restorePrefix x)
                               (TextObject.restoreIndent x)
                 else e in
        (e, err)
      end in
    match err with
    | Some err => (e, Some err)
    | None => TextData_MarshalXML list e
    end
  end.

End TextDataMarshal.

(** ** An encoder that records the calls it receives *)

Inductive EncoderCall : Type :=
  | CallEncodeToken (x : string)
  | CallIndent (prefix indent : string)
  | CallEncode (x : TextObject.t).

(** The calls [TextData.MarshalXML] makes for one element of the data. *)
Definition datum_calls (d : TextDatum TextObject.t) : list EncoderCall :=
  match d with
  | chardata x => [CallEncodeToken x]
  | p_tspan x =>
    if bool_decide (TextObject.restoreIndent x ≠ "")
    then [CallIndent "" ""; CallEncode x;
          CallIndent (TextObject.restorePrefix x) (TextObject.restoreIndent x)]
    else [CallEncode x]
  end.

(** The call of the group whose answer [MarshalXML] checks, and the calls
    of the group before it. *)
Definition datum_checked_call (d : TextDatum TextObject.t) : EncoderCall :=
  match d with
  | chardata x => CallEncodeToken x
  | p_tspan x => CallEncode x
  end.

Definition datum_calls_before (d : TextDatum TextObject.t) : list EncoderCall :=
  match d with
  | chardata x => []
  | p_tspan x =>
    if bool_decide (TextObject.restoreIndent x ≠ "")
    then [CallIndent "" ""] else []
  end.

(** The indentation settings a sequence of calls goes through. *)
Definition indent_calls (calls : list EncoderCall) : list (string * string) :=
  c ← calls;
  match c with CallIndent prefix indent => [(prefix, indent)] | _ => [] end.

Section RecordingEncoder.

  (** What the encoder answers to a call, given the calls before it. *)
  Variable respond : list EncoderCall → EncoderCall → option error.

Definition rec_EncodeToken (log : list EncoderCall) (x : string)
    : list EncoderCall * option error :=
  (log ++ [CallEncodeToken x], respond log (CallEncodeToken x)).

Definition rec_Indent (log : list EncoderCall) (prefix indent : string)
    : list EncoderCall :=
  log ++ [CallIndent prefix indent].

Definition rec_Encode (log : list EncoderCall) (x : TextObject.t)
    : list EncoderCall * option error :=
  (log ++ [CallEncode x], respond log (CallEncode x)).

Definition rec_MarshalXML (data : TextData) (log : list EncoderCall)
    : list EncoderCall * option error :=
  TextData_MarshalXML (list EncoderCall) rec_EncodeToken rec_Indent rec_Encode
                      data log.

End RecordingEncoder.

(** ** Invariants of the style table *)

(** Every entry of the class table is mirrored in the style table. *)
Definition classes_recorded (d : Document.t) : Prop :=
  ∀ class style,
    map_get (styles.classMap (Document.styles d)) class = Some style →
    map_get (styles.defMap (Document.styles d)) style = Some class.

(** The style table has no entry. *)
Definition no_defs (d : Document.t) : Prop :=
  ∀ style, map_get (styles.defMap (Document.styles d)) style = None.

(** A decoder for the numerals [strconv.Itoa] writes. *)
Definition parse_int (s : string) : option Z :=
  Z.of_int <$> NilZero.int_of_string s.

(** The document and the results of a run of calls, for examples. *)
Definition run_document (d : Document.t) (calls : list (string * string))
    : Document.t :=
  match MakeStyles d calls with Some (_, d') => d' | None => d end.

Definition run_classes (d : Document.t) (calls : list (string * string))
    : list Styling.t :=
  match MakeStyles d calls with Some (sts, _) => sts | None => [] end.

(** ** Values built through the methods of the package *)



(** The number and the unit suffix of a [Length]. *)
Definition Length_number (l : Length) : float64 :=
  match l with number f | emUnits f | exUnits f | percentage f => f end.

Definition Length_unit (l : Length) : string :=
  match l with
  | number _ => ""
  | emUnits _ => "em"
  | exUnits _ => "ex"
  | percentage _ => "%"
  end.

(** One call of a constructor of elements, with its arguments. *)
Inductive ElemOp : Type :=
  | OpLineInt (x1 y1 x2 y2 : Z)
  | OpRectInt (x y w h : Z)
  | OpCircleInt (cx cy r : Z)
  | OpEllipseInt (cx cy rx ry : Z)
  | OpPolyLine
  | OpPolygon
  | OpPath (d : string)
  | OpUseObjectInt (x y : Z) (id : string)
  | OpTitle (content : string)
  | OpGroup
  | OpDefs.

(** The list after the call. *)
Definition apply_op (el : ElemList) (op : ElemOp) : ElemList :=
  match op with
  | OpLineInt x1 y1 x2 y2 => fst (LineInt el x1 y1 x2 y2)
  | OpRectInt x y w h => fst (RectInt el x y w h)
  | OpCircleInt cx cy r => fst (CircleInt el cx cy r)
  | OpEllipseInt cx cy rx ry => fst (EllipseInt el cx cy rx ry)
  | OpPolyLine => fst (PolyLine el)
  | OpPolygon => fst (Polygon el)
  | OpPath d => fst (Path el d)
  | OpUseObjectInt x y id => fst (UseObjectInt el x y id)
  | OpTitle content => Title el content
  | OpGroup => fst (Group el)
  | OpDefs => fst (Defs el)
  end.

(** The position the call returns a pointer to ([Title] returns none). *)
Definition op_handle (el : ElemList) (op : ElemOp) : option nat :=
  match op with
  | OpLineInt x1 y1 x2 y2 => Some (snd (LineInt el x1 y1 x2 y2))
  | OpRectInt x y w h => Some (snd (RectInt el x y w h))
  | OpCircleInt cx cy r => Some (snd (CircleInt el cx cy r))
  | OpEllipseInt cx cy rx ry => Some (snd (EllipseInt el cx cy rx ry))
  | OpPolyLine => Some (snd (PolyLine el))
  | OpPolygon => Some (snd (Polygon el))
  | OpPath d => Some (snd (Path el d))
  | OpUseObjectInt x y id => Some (snd (UseObjectInt el x y id))
  | OpTitle content => None
  | OpGroup => Some (snd (Group el))
  | OpDefs => Some (snd (Defs el))
  end.

(* ================================================================== *)
(** * Properties *)
(* ================================================================== *)

(** Well-formedness of a closed document, by evaluation. *)
Ltac wf_by_evaluation :=
  vm_compute; repeat split; intros;
  first [ discriminate | eexists; reflexivity
        | match goal with H : ex _ |- _ => destruct H; discriminate end ].

(** ** Strings *)

Lemma append_cons (a : ascii) (s t : string) :
  String a s +:+ t = String a (s +:+ t).
Proof. reflexivity. Qed.

Lemma append_nil_l (s : string) : "" +:+ s = s.
Proof. reflexivity. Qed.

Lemma append_nil_r (s : string) : s +:+ "" = s.
Proof. induction s as [|a s IH]; [done|]. by rewrite append_cons, IH. Qed.

Lemma append_assoc (s t u : string) : (s +:+ t) +:+ u = s +:+ (t +:+ u).
Proof. induction s as [|a s IH]; [done|]. by rewrite !append_cons, IH. Qed.

Lemma length_append (s t : string) :
  String.length (s +:+ t) = String.length s + String.length t.
Proof. induction s as [|a s IH]; [done|]. rewrite append_cons. simpl. by rewrite IH. Qed.

Lemma append_eq_nil (s t : string) : s +:+ t = "" → s = "" ∧ t = "".
Proof. destruct s; [done|]. by rewrite append_cons. Qed.

Lemma substring_0_length (s : string) (n : nat) :
  n ≤ String.length s → String.length (substring 0 n s) = n.
Proof.
  revert n. induction s as [|a s IH]; intros [|n] Hn; simpl in *; try done; try lia.
  rewrite IH; lia.
Qed.

Lemma TrimSuffix_no_suffix (s suffix : string) :
  strings.HasSuffix s suffix = false → strings.TrimSuffix s suffix = s.
Proof. unfold strings.TrimSuffix. by intros ->. Qed.

Lemma TrimSuffix_length (s suffix : string) :
  strings.HasSuffix s suffix = true →
  String.length (strings.TrimSuffix s suffix)
  = String.length s - String.length suffix.
Proof.
  unfold strings.TrimSuffix. intros ->. apply substring_0_length. lia.
Qed.

(** Trimming changes the text exactly when the suffix is there (for a
    non-empty suffix). *)
Lemma TrimSuffix_id_iff (s suffix : string) :
  suffix ≠ "" →
  strings.TrimSuffix s suffix = s ↔ strings.HasSuffix s suffix = false.
Proof.
  intros Hne. split; [|apply TrimSuffix_no_suffix].
  destruct (strings.HasSuffix s suffix) eqn:Hs; [|done].
  intros Heq. apply TrimSuffix_length in Hs as Hlen. rewrite Heq in Hlen.
  unfold strings.HasSuffix in Hs.
  apply andb_true_iff in Hs as [Hle%bool_decide_eq_true _].
  destruct suffix; [done|]. simpl in *. lia.
Qed.

(** ** Integers *)

Lemma int_wrap_small (z : Z) :
  (- 2 ^ 63 ≤ z ≤ int_max)%Z → int_wrap z = z.
Proof.
  unfold int_wrap, int_max, strconv.IntSize. intros Hz.
  rewrite Z.mod_small; lia.
Qed.

Lemma int_wrap_range (z : Z) : (- 2 ^ 63 ≤ int_wrap z ≤ int_max)%Z.
Proof.
  unfold int_wrap, int_max, strconv.IntSize.
  pose proof (Z.mod_pos_bound (z + 2 ^ (64 - 1)) (2 ^ 64)) as H. lia.
Qed.

(** ** The style table *)

Lemma map_get_Some (m : gomap) (k v : string) :
  map_get m k = Some v ↔ ∃ t, m = Some t ∧ t !! k = Some v.
Proof.
  unfold map_get. destruct m as [t|]; simpl.
  - split; [eauto|]. by intros (? & [= <-] & ?).
  - split; [done|]. by intros (? & ? & ?).
Qed.

Lemma map_set_Some (m : gomap) (k v : string) (t : gmap string string) :
  m = Some t → map_set m k v = Some (Some (<[k := v]> t)).
Proof. by intros ->. Qed.

Lemma map_set_is_Some (m : gomap) (k v : string) :
  is_Some m → ∃ m', map_set m k v = Some m' ∧ is_Some m' ∧
    map_get m' k = Some v ∧ ∀ k', k' ≠ k → map_get m' k' = map_get m k'.
Proof.
  intros [t ->]. eexists. split; [done|]. split; [done|]. simpl. split.
  - apply lookup_insert_eq.
  - intros k' Hk'. by apply lookup_insert_ne.
Qed.

Lemma NewDocument_conf (c : option Conf.t) :
  Document.conf (NewDocument c) = Some (default Conf.zero c).
Proof. by destruct c as [[g u s []]|]. Qed.

Lemma NewDocument_styles (c : option Conf.t) :
  Document.styles (NewDocument c) = styles.zero.
Proof. by destruct c as [[g u s []]|]. Qed.

Lemma NewDocument_Style (c : option Conf.t) :
  Document.Style (NewDocument c) = "" ∧ Document.ID (NewDocument c) = "".
Proof. by destruct c as [[g u s []]|]. Qed.

Lemma NewDocument_wf (c : option Conf.t) : wf_Document (NewDocument c).
Proof.
  split.
  - rewrite NewDocument_conf. done.
  - rewrite NewDocument_styles. simpl. split; [|done].
    split; intros [? ?]; discriminate.
Qed.

Lemma with_styles_id (d : Document.t) :
  Document.with_styles d (Document.styles d) = d.
Proof. by destruct d. Qed.

(** Without the embedded stylesheet the document is left as it is. *)
Lemma MakeStyle_inline_eq (d : Document.t) (conf : Conf.t) (name style : string) :
  Document.conf d = Some conf →
  Conf.GenerateEmbeddedStylesheet conf = false →
  MakeStyle d name style
  = Some (if bool_decide (style ≠ "") then Styling.mk "" style
          else Styling.mk name "", d).
Proof.
  intros Hc He. unfold MakeStyle. rewrite Hc. simpl. rewrite He. simpl.
  by case_bool_decide.
Qed.

(** A style text that is in the style table gives its class back and
    changes nothing. *)
Lemma MakeStyle_known (d : Document.t) (conf : Conf.t) (name style class : string) :
  Document.conf d = Some conf →
  Conf.GenerateEmbeddedStylesheet conf = true →
  map_get (styles.defMap (Document.styles d)) style = Some class →
  MakeStyle d name style = Some (Styling.mk class "", d).
Proof.
  intros Hc He Hk. unfold MakeStyle. rewrite Hc. simpl. rewrite He. simpl.
  apply map_get_Some in Hk as Hk'. destruct Hk' as (dm & Hdm & _).
  destruct (styles.defMap (Document.styles d)) as [dm'|] eqn:Hdm'; [|done].
  rewrite Hdm', Hk. by rewrite with_styles_id.
Qed.

(** A style text that is not in the style table is registered: the call
    returns, and the document after it is described field by field. *)
Lemma MakeStyle_new (d : Document.t) (conf : Conf.t) (name style : string) :
  wf_Document d →
  Document.conf d = Some conf →
  Conf.GenerateEmbeddedStylesheet conf = true →
  map_get (styles.defMap (Document.styles d)) style = None →
  ∃ d',
    MakeStyle d name style = Some (Styling.mk (assigned_class d name) "", d') ∧
    Document.conf d' = Some conf ∧
    Document.ID d' = Document.ID d ∧
    styles.nConflict (Document.styles d') = next_nConflict d name ∧
    is_Some (styles.defMap (Document.styles d')) ∧
    is_Some (styles.classMap (Document.styles d')) ∧
    (∀ k, map_get (styles.classMap (Document.styles d')) k
          = if decide (k = assigned_class d name) then Some style
            else map_get (styles.classMap (Document.styles d)) k) ∧
    (∀ k, map_get (styles.defMap (Document.styles d')) k
          = if Conf.StylesheetUnifyStyles conf && bool_decide (k = style)
            then Some (assigned_class d name)
            else map_get (styles.defMap (Document.styles d)) k) ∧
    Document.Style d'
    = Document.Style d +:+ rule_separator d +:+
      spec_rule (rule_scope conf d) (assigned_class d name) style.
Proof.
  intros (_ & Hwf & _) Hc He Hnew.
  unfold MakeStyle, assigned_class, next_nConflict, rule_separator, rule_scope, spec_rule.
  rewrite Hc. simpl. rewrite He. simpl.
  destruct d as [vb w h st cont [dm cm n] ns cf]. simpl in *.
  unfold Document.ID in *. simpl in *.
  assert (∃ dm0 cm0,
    match dm with Some _ => styles.mk dm cm n
                | None => styles.mk (Some ∅) (Some ∅) n end
    = styles.mk (Some dm0) (Some cm0) n ∧
    (∀ k, map_get (Some dm0) k = map_get dm k) ∧
    (∀ k, map_get (Some cm0) k = map_get cm k)) as (dm0 & cm0 & -> & Hd & Hcm).
  { destruct dm as [dm|], cm as [cm|]; eauto.
    - exfalso. destruct Hwf as [Hwf _]. destruct Hwf as [? ?]; [eauto|done].
    - exfalso. destruct Hwf as [_ Hwf]. destruct Hwf as [? ?]; [eauto|done]. }
  cbn [styles.defMap styles.classMap styles.nConflict].
  rewrite Hd, Hnew, Hcm.
  set (cls := match map_get cm name with
              | Some _ => name +:+ strconv.Itoa (int_wrap (n + 1))
              | None => name end).
  set (n' := match map_get cm name with
             | Some _ => int_wrap (n + 1) | None => n end).
  assert (∀ k, (<[cls := style]> cm0 : gmap string string) !! k
               = if decide (k = cls) then Some style else map_get cm k) as Hins.
  { intros k. rewrite lookup_insert. rewrite <- Hcm. simpl.
    destruct (decide (cls = k)), (decide (k = cls)); congruence. }
  assert ((if bool_decide (st ≠ "") then st +:+ " " else st)
          = st +:+ (if bool_decide (st ≠ "") then " " else "")) as Hsep.
  { case_bool_decide; by rewrite ?append_nil_r. }
  assert (∀ cl,
    (if Conf.ScopeStyleDefinitions conf &&
        bool_decide (Object.ID (Container.Object cont) ≠ "")
     then (if bool_decide (st ≠ "") then st +:+ " " else st) +:+
          ("#" +:+ Object.ID (Container.Object cont)) +:+ " "
     else if bool_decide (st ≠ "") then st +:+ " " else st) +:+
    ((("." +:+ cl) +:+ " {") +:+ strings.TrimSuffix style ";") +:+ "}"
    = st +:+ (if bool_decide (st ≠ "") then " " else "") +:+
      match (if Conf.ScopeStyleDefinitions conf &&
                bool_decide (Object.ID (Container.Object cont) ≠ "")
             then Some (Object.ID (Container.Object cont)) else None) with
      | Some id => "#" +:+ id +:+ " "
      | None => ""
      end +:+ "." +:+ cl +:+ " {" +:+ strings.TrimSuffix style ";" +:+ "}")
    as Hrule.
  { intros cl. rewrite Hsep.
    destruct (Conf.ScopeStyleDefinitions conf && _); by rewrite !append_assoc. }
  destruct (map_get cm name) as [old|] eqn:Hold; subst cls n';
    cbn [styles.defMap styles.classMap styles.nConflict];
    destruct (Conf.StylesheetUnifyStyles conf); simpl;
    (eexists; split; [reflexivity|]); simpl; split_and!; eauto; intros k;
    rewrite ?lookup_insert, <- ?Hd; simpl; try done;
    (destruct (decide (style = k)) as [<-|Hne];
     [by rewrite bool_decide_eq_true_2 | by rewrite bool_decide_eq_false_2]).
Qed.

Lemma next_nConflict_range (d : Document.t) (name : string) :
  wf_Document d → (- 2 ^ 63 ≤ next_nConflict d name ≤ int_max)%Z.
Proof.
  intros (_ & _ & Hn). unfold next_nConflict.
  destruct (map_get _ name); [apply int_wrap_range|done].
Qed.

(** [MakeStyle] returns on every well-formed document, and the document
    after the call is well-formed with the same configuration. *)
Lemma MakeStyle_wf (d : Document.t) (name style : string) :
  wf_Document d →
  ∃ st d', MakeStyle d name style = Some (st, d') ∧ wf_Document d' ∧
           Document.conf d' = Document.conf d.
Proof.
  intros Hwf. pose proof Hwf as ([conf Hc] & Hmaps & Hn).
  destruct (Conf.GenerateEmbeddedStylesheet conf) eqn:He.
  - destruct (map_get (styles.defMap (Document.styles d)) style) as [class|] eqn:Hk.
    + exists (Styling.mk class ""), d. eauto using MakeStyle_known.
    + destruct (MakeStyle_new d conf name style Hwf Hc He Hk)
        as (d' & Hcall & Hc' & _ & Hn' & Hdm & Hcm & _).
      exists (Styling.mk (assigned_class d name) ""), d'.
      split; [done|]. split; [|congruence].
      split; [by rewrite Hc'|]. split; [done|].
      rewrite Hn'. by apply next_nConflict_range.
  - eexists _, d. split; [by eapply MakeStyle_inline_eq|done].
Qed.

(** Any sequence of calls on a new document returns. *)
Lemma MakeStyles_total (d : Document.t) (calls : list (string * string)) :
  wf_Document d →
  ∃ sts d', MakeStyles d calls = Some (sts, d') ∧ wf_Document d' ∧
            length sts = length calls.
Proof.
  revert d. induction calls as [|[name style] calls IH]; intros d Hwf.
  - by exists [], d.
  - destruct (MakeStyle_wf d name style Hwf) as (st & d1 & Hcall & Hwf1 & _).
    destruct (IH d1 Hwf1) as (sts & d2 & Hcalls & Hwf2 & Hlen).
    exists (st :: sts), d2. simpl. rewrite Hcall. simpl. rewrite Hcalls. simpl.
    by rewrite Hlen.
Qed.

(** The conflict counter moves by at most one step per call, upwards as
    long as it has not reached the largest [int]. *)
Lemma MakeStyle_nConflict_step (d d' : Document.t) (name style : string)
    (st : Styling.t) :
  wf_Document d →
  MakeStyle d name style = Some (st, d') →
  (styles.nConflict (Document.styles d) < int_max)%Z →
  (styles.nConflict (Document.styles d)
   ≤ styles.nConflict (Document.styles d')
   ≤ styles.nConflict (Document.styles d) + 1)%Z.
Proof.
  intros Hwf Hcall Hlt.
  pose proof Hwf as ([conf Hc] & Hmaps & Hn).
  destruct (Conf.GenerateEmbeddedStylesheet conf) eqn:He.
  - destruct (map_get (styles.defMap (Document.styles d)) style) as [class|] eqn:Hk.
    + rewrite (MakeStyle_known d conf name style class) in Hcall by done.
      injection Hcall as _ <-. lia.
    + destruct (MakeStyle_new d conf name style Hwf Hc He Hk)
        as (d1 & Hcall1 & _ & _ & Hn' & _).
      rewrite Hcall1 in Hcall. injection Hcall as _ <-. rewrite Hn'.
      unfold next_nConflict. destruct (map_get _ name); [|lia].
      rewrite int_wrap_small; lia.
  - rewrite (MakeStyle_inline_eq d conf) in Hcall by done.
    injection Hcall as _ <-. lia.
Qed.

Lemma MakeStyles_nConflict_mono (calls : list (string * string))
    (d d' : Document.t) (sts : list Styling.t) :
  wf_Document d →
  MakeStyles d calls = Some (sts, d') →
  (styles.nConflict (Document.styles d) + Z.of_nat (length calls) ≤ int_max)%Z →
  (styles.nConflict (Document.styles d)
   ≤ styles.nConflict (Document.styles d')
   ≤ styles.nConflict (Document.styles d) + Z.of_nat (length calls))%Z.
Proof.
  revert d sts. induction calls as [|[name style] calls IH]; intros d sts Hwf.
  - simpl. intros [= _ <-] _. lia.
  - cbn [MakeStyles length]. intros Hcalls Hmax.
    destruct (MakeStyle_wf d name style Hwf) as (st & d1 & Hcall & Hwf1 & _).
    rewrite Hcall in Hcalls. cbn [mbind option_bind] in Hcalls.
    destruct (MakeStyles d1 calls) as [[sts' d2]|] eqn:Hrest; [|done].
    cbn [mbind option_bind] in Hcalls. injection Hcalls as _ <-.
    pose proof (MakeStyle_nConflict_step d d1 name style st Hwf Hcall) as Hstep.
    specialize (IH d1 sts' Hwf1 Hrest). lia.
Qed.

(** The exported fields a caller may assign between two calls do not
    matter for well-formedness. *)
Lemma SetID_wf (d : Document.t) (id : string) :
  wf_Document d → wf_Document (Document.SetID d id).
Proof. by destruct d. Qed.

Lemma with_Style_wf (d : Document.t) (style : string) :
  wf_Document d → wf_Document (Document.with_Style d style).
Proof. by destruct d. Qed.

(** The precondition is needed: on the zero [Document], whose [conf] is
    nil, the first statement of [MakeStyle] dereferences a nil pointer. *)
Lemma MakeStyle_zero_Document (name style : string) :
  MakeStyle Document.zero name style = None.
Proof. reflexivity. Qed.

(** ** Claims on [Document.MakeStyle] *)

(** C1 (as amended).  Without [GenerateEmbeddedStylesheet], [MakeStyle]
    returns and leaves the whole document, hence the style table, the
    stylesheet text and the counter, as it was.  For a non-empty style the
    result has an empty [Class]; when the style text has no trailing [;]
    the result is the style-only [Styling] carrying that text, which is
    then the text with a trailing [;] trimmed.  For the empty style the
    result carries the requested name as [Class] and an empty [Style],
    under the guard [style != ""] of the source.  What the [Style] field
    holds for a text with a trailing [;] is left open here. *)
Theorem MakeStyle_inline (d : Document.t) (conf : Conf.t) (name style : string) :
  Document.conf d = Some conf →
  Conf.GenerateEmbeddedStylesheet conf = false →
  ∃ st, MakeStyle d name style = Some (st, d) ∧
        (style ≠ "" → Styling.Class st = "") ∧
        (style ≠ "" → strings.HasSuffix style ";" = false →
         st = Styling.mk "" (strings.TrimSuffix style ";")) ∧
        (style = "" → st = Styling.mk name "").
Proof.
  intros Hc He. eexists. split; [by apply (MakeStyle_inline_eq d conf)|].
  case_bool_decide as Hs; simpl.
  - split_and!; [done| |done].
    intros _ Hno. by rewrite TrimSuffix_no_suffix.
  - assert (style = "") as -> by (by destruct (decide (style = ""))).
    by split_and!.
Qed.

Lemma MakeStyle_inline_witness :
  Document.conf (NewDocument None) = Some Conf.zero ∧
  Conf.GenerateEmbeddedStylesheet Conf.zero = false ∧
  ∃ st, MakeStyle (NewDocument None) "foo" "fill:red"
        = Some (st, NewDocument None) ∧
        ("fill:red" ≠ "" → Styling.Class st = "") ∧
        ("fill:red" ≠ "" → strings.HasSuffix "fill:red" ";" = false →
         st = Styling.mk "" (strings.TrimSuffix "fill:red" ";")) ∧
        ("fill:red" = "" → st = Styling.mk "foo" "").
Proof.
  split; [reflexivity|]. split; [reflexivity|].
  apply (MakeStyle_inline (NewDocument None) Conf.zero "foo" "fill:red");
    reflexivity.
Defined.

(** C1 as stated fails: on the specification's own example the separator
    is kept, and with an empty style the [Class] field is not empty. *)
Lemma MakeStyle_inline_keeps_separator :
  Conf.GenerateEmbeddedStylesheet Conf.zero = false ∧
  MakeStyle (NewDocument None) "foo" "fill:red;"
  = Some (Styling.mk "" "fill:red;", NewDocument None) ∧
  strings.TrimSuffix "fill:red;" ";" = "fill:red" ∧
  "fill:red;" ≠ strings.TrimSuffix "fill:red;" ";" ∧
  MakeStyle (NewDocument None) "foo" ""
  = Some (Styling.mk "foo" "", NewDocument None) ∧
  Styling.Class (Styling.mk "foo" "") ≠ "".
Proof. by split_and!. Qed.

(** C9.  Without [GenerateEmbeddedStylesheet] and with the empty style,
    [MakeStyle] returns the requested name as [Class] and an empty [Style],
    and leaves the document as it was. *)
Theorem MakeStyle_inline_empty_style (d : Document.t) (conf : Conf.t)
    (name : string) :
  Document.conf d = Some conf →
  Conf.GenerateEmbeddedStylesheet conf = false →
  MakeStyle d name "" = Some (Styling.mk name "", d).
Proof. intros Hc He. by rewrite (MakeStyle_inline_eq d conf). Qed.

Lemma MakeStyle_inline_empty_style_witness :
  Document.conf (NewDocument None) = Some Conf.zero ∧
  Conf.GenerateEmbeddedStylesheet Conf.zero = false ∧
  MakeStyle (NewDocument None) "foo" ""
  = Some (Styling.mk "foo" "", NewDocument None).
Proof.
  split; [reflexivity|]. split; [reflexivity|].
  apply (MakeStyle_inline_empty_style (NewDocument None) Conf.zero "foo");
    reflexivity.
Defined.

(** The example runs of the specification, for every configuration that
    embeds the stylesheet. *)
Lemma MakeStyles_same_name_example (conf : Conf.t) :
  Conf.GenerateEmbeddedStylesheet conf = true →
  ∃ d2, MakeStyles (NewDocument (Some conf))
                   [("a", "fill:red;"); ("a", "fill:blue;")]
        = Some ([Styling.mk "a" ""; Styling.mk "a1" ""], d2).
Proof.
  destruct conf as [g u s e]. simpl. intros ->.
  destruct u, s, e; (eexists; vm_compute; reflexivity).
Qed.

Lemma MakeStyles_same_style_example (conf : Conf.t) :
  Conf.GenerateEmbeddedStylesheet conf = true →
  Conf.StylesheetUnifyStyles conf = true →
  ∃ d2, MakeStyles (NewDocument (Some conf))
                   [("a", "fill:red;"); ("a", "fill:red;")]
        = Some ([Styling.mk "a" ""; Styling.mk "a" ""], d2) ∧
        Document.Style d2 = ".a {fill:red}".
Proof.
  destruct conf as [g u s e]. simpl. intros -> ->.
  destruct s, e; (eexists; vm_compute; split; reflexivity).
Qed.

(** C3.  With [GenerateEmbeddedStylesheet], a style text that is not in
    the style table and a requested name that is in the class table:
    [MakeStyle] increments the conflict counter and registers and returns
    the requested name followed by the decimal numeral of the new counter
    value.  On a new document, [MakeStyle("a","fill:red;")] followed by
    [MakeStyle("a","fill:blue;")] returns the two distinct classes ["a"]
    and ["a1"]. *)
Theorem MakeStyle_conflict (d : Document.t) (conf : Conf.t)
    (name style old : string) :
  wf_Document d →
  Document.conf d = Some conf →
  Conf.GenerateEmbeddedStylesheet conf = true →
  map_get (styles.defMap (Document.styles d)) style = None →
  map_get (styles.classMap (Document.styles d)) name = Some old →
  let n := int_wrap (styles.nConflict (Document.styles d) + 1) in
  (∃ d', MakeStyle d name style
         = Some (Styling.mk (name +:+ strconv.Itoa n) "", d') ∧
         styles.nConflict (Document.styles d') = n ∧
         map_get (styles.classMap (Document.styles d')) (name +:+ strconv.Itoa n)
         = Some style) ∧
  ((styles.nConflict (Document.styles d) < int_max)%Z →
   n = (styles.nConflict (Document.styles d) + 1)%Z) ∧
  (∃ d2, MakeStyles (NewDocument (Some conf))
                    [("a", "fill:red;"); ("a", "fill:blue;")]
         = Some ([Styling.mk "a" ""; Styling.mk "a1" ""], d2) ∧ "a" ≠ "a1").
Proof.
  intros Hwf Hc He Hnew Hold n. split_and!.
  - destruct (MakeStyle_new d conf name style Hwf Hc He Hnew)
      as (d' & Hcall & _ & _ & Hn' & _ & _ & Hcm & _).
    unfold assigned_class, next_nConflict in Hcall, Hn', Hcm.
    rewrite Hold in Hcall, Hn', Hcm.
    exists d'. split_and!; [done|done|].
    rewrite Hcm. by rewrite decide_True.
  - intros Hlt. destruct Hwf as (_ & _ & Hn). subst n.
    apply int_wrap_small. lia.
  - destruct (MakeStyles_same_name_example conf He) as [d2 H2].
    exists d2. by split.
Qed.

Lemma MakeStyle_conflict_witness :
  ∃ d', MakeStyle (doc_with_a (Conf.mk true false false false)) "a" "fill:blue;"
        = Some (Styling.mk "a1" "", d') ∧
        styles.nConflict (Document.styles d') = 1%Z.
Proof.
  destruct (MakeStyle_conflict (doc_with_a (Conf.mk true false false false))
              (Conf.mk true false false false) "a" "fill:blue;" "fill:red;")
    as ((d' & Hcall & Hn & _) & _ & _).
  - wf_by_evaluation.
  - vm_compute; reflexivity.
  - reflexivity.
  - vm_compute; reflexivity.
  - vm_compute; reflexivity.
  - exists d'. split; [exact Hcall|exact Hn].
Defined.

(** C4.  With [GenerateEmbeddedStylesheet] and [StylesheetUnifyStyles], a
    second call with the same style text (under any requested name)
    returns the class of the first call and leaves the whole document as
    the first call left it; when the text was new, the two calls together
    append one rule, and when it was known none.  On a new document the
    two calls [MakeStyle("a","fill:red;")] give class ["a"] twice and the
    stylesheet [.a {fill:red}]. *)
Theorem MakeStyle_unify_same_class (d : Document.t) (conf : Conf.t)
    (name name' style : string) :
  wf_Document d →
  Document.conf d = Some conf →
  Conf.GenerateEmbeddedStylesheet conf = true →
  Conf.StylesheetUnifyStyles conf = true →
  (∃ st d1,
     MakeStyle d name style = Some (st, d1) ∧
     MakeStyle d1 name' style = Some (st, d1) ∧
     Styling.Style st = "" ∧
     (map_get (styles.defMap (Document.styles d)) style = None →
      Document.Style d1
      = Document.Style d +:+ rule_separator d +:+
        spec_rule (rule_scope conf d) (Styling.Class st) style) ∧
     (is_Some (map_get (styles.defMap (Document.styles d)) style) → d1 = d)) ∧
  (∃ d2, MakeStyles (NewDocument (Some conf))
                    [("a", "fill:red;"); ("a", "fill:red;")]
         = Some ([Styling.mk "a" ""; Styling.mk "a" ""], d2) ∧
         Document.Style d2 = ".a {fill:red}").
Proof.
  intros Hwf Hc He Hu. split; [|by apply MakeStyles_same_style_example].
  destruct (map_get (styles.defMap (Document.styles d)) style)
    as [class|] eqn:Hk.
  - exists (Styling.mk class ""), d.
    rewrite !(MakeStyle_known d conf _ style class) by done.
    by split_and!.
  - destruct (MakeStyle_new d conf name style Hwf Hc He Hk)
      as (d1 & Hcall & Hc1 & _ & _ & _ & _ & _ & Hdm & HStyle).
    exists (Styling.mk (assigned_class d name) ""), d1.
    split_and!; try done.
    apply (MakeStyle_known d1 conf); [done|done|].
    rewrite Hdm, Hu. simpl. by rewrite bool_decide_eq_true_2.
Qed.

Lemma MakeStyle_unify_same_class_witness :
  ∃ st d1,
    MakeStyle (NewDocument (Some (Conf.mk true true false false)))
              "a" "fill:red;" = Some (st, d1) ∧
    MakeStyle d1 "b" "fill:red;" = Some (st, d1) ∧
    Styling.Style st = "".
Proof.
  destruct (MakeStyle_unify_same_class
              (NewDocument (Some (Conf.mk true true false false)))
              (Conf.mk true true false false) "a" "b" "fill:red;")
    as ((st & d1 & H1 & H2 & H3 & _) & _).
  - wf_by_evaluation.
  - reflexivity.
  - reflexivity.
  - reflexivity.
  - exists st, d1. split; [exact H1|]. split; [exact H2|exact H3].
Defined.

(** C5.  When [MakeStyle] registers a new rule, with a non-empty document
    identifier whenever [ScopeStyleDefinitions] is set, the stylesheet text
    after the call is the text before it, followed by one space if that
    text was not empty, then by [#], the identifier and a space if
    [ScopeStyleDefinitions] is set, then by [.], the assigned class name,
    [ {], the style text without its trailing [;] if it has one, and [}]. *)
Theorem MakeStyle_rule_text (d : Document.t) (conf : Conf.t)
    (name style : string) :
  wf_Document d →
  Document.conf d = Some conf →
  Conf.GenerateEmbeddedStylesheet conf = true →
  map_get (styles.defMap (Document.styles d)) style = None →
  (Conf.ScopeStyleDefinitions conf = true → Document.ID d ≠ "") →
  ∃ class d',
    MakeStyle d name style = Some (Styling.mk class "", d') ∧
    map_get (styles.classMap (Document.styles d')) class = Some style ∧
    Document.Style d'
    = Document.Style d +:+
      (if bool_decide (Document.Style d = "") then "" else " ") +:+
      (if Conf.ScopeStyleDefinitions conf
       then "#" +:+ Document.ID d +:+ " " else "") +:+
      "." +:+ class +:+ " {" +:+ strings.TrimSuffix style ";" +:+ "}".
Proof.
  intros Hwf Hc He Hnew Hid.
  destruct (MakeStyle_new d conf name style Hwf Hc He Hnew)
    as (d' & Hcall & _ & _ & _ & _ & _ & Hcm & _ & HStyle).
  exists (assigned_class d name), d'. split_and!; [done|..].
  - rewrite Hcm. by rewrite decide_True.
  - rewrite HStyle. unfold rule_separator, rule_scope, spec_rule.
    f_equal. f_equal.
    + by repeat case_bool_decide.
    + destruct (Conf.ScopeStyleDefinitions conf); [|done].
      by rewrite bool_decide_eq_true_2 by auto.
Qed.

Lemma MakeStyle_rule_text_witness :
  ∃ class d',
    MakeStyle doc_scoped "b" "stroke:blue;" = Some (Styling.mk class "", d') ∧
    Document.Style d' = ".x {fill:red} #doc ." +:+ class +:+ " {stroke:blue}".
Proof.
  destruct (MakeStyle_rule_text doc_scoped (Conf.mk true false true false)
              "b" "stroke:blue;")
    as (class & d' & Hcall & _ & HStyle).
  - wf_by_evaluation.
  - reflexivity.
  - reflexivity.
  - reflexivity.
  - intros _. discriminate.
  - exists class, d'. split; [exact Hcall|exact HStyle].
Defined.

(** C10.  [MakeStyle] returns a [Styling] on every well-formed document
    (one built by [NewDocument] and changed by [MakeStyle] calls only in
    its unexported fields), without panic, and leaves a well-formed
    document.  When [ScopeStyleDefinitions] is set and the identifier is
    empty, a new rule is appended all the same, without scope prefix. *)
Theorem MakeStyle_total (d : Document.t) (name style : string) :
  wf_Document d →
  ∃ st d',
    MakeStyle d name style = Some (st, d') ∧
    wf_Document d' ∧
    (∀ conf,
       Document.conf d = Some conf →
       Conf.GenerateEmbeddedStylesheet conf = true →
       Conf.ScopeStyleDefinitions conf = true →
       Document.ID d = "" →
       map_get (styles.defMap (Document.styles d)) style = None →
       Styling.Style st = "" ∧
       map_get (styles.classMap (Document.styles d')) (Styling.Class st)
       = Some style ∧
       Document.Style d'
       = Document.Style d +:+
         (if bool_decide (Document.Style d = "") then "" else " ") +:+
         "." +:+ Styling.Class st +:+ " {" +:+
         strings.TrimSuffix style ";" +:+ "}").
Proof.
  intros Hwf.
  destruct (MakeStyle_wf d name style Hwf) as (st & d' & Hcall & Hwf' & _).
  exists st, d'. split_and!; [done|done|].
  intros conf Hc He Hs Hid Hnew.
  destruct (MakeStyle_new d conf name style Hwf Hc He Hnew)
    as (d1 & Hcall1 & _ & _ & _ & _ & _ & Hcm & _ & HStyle).
  rewrite Hcall1 in Hcall. injection Hcall as <- <-. simpl.
  split_and!; [done|..].
  - rewrite Hcm. by rewrite decide_True.
  - rewrite HStyle. unfold rule_separator, rule_scope, spec_rule.
    rewrite Hs, Hid. simpl. f_equal. f_equal. by repeat case_bool_decide.
Qed.

Lemma MakeStyle_total_witness :
  ∃ st d',
    MakeStyle doc_scoped_without_ID "a" "fill:red;" = Some (st, d') ∧
    Document.Style d' = "." +:+ Styling.Class st +:+ " {fill:red}".
Proof.
  destruct (MakeStyle_total doc_scoped_without_ID "a" "fill:red;")
    as (st & d' & Hcall & _ & H).
  - wf_by_evaluation.
  - destruct (H (Conf.mk true false true false)) as (_ & _ & HStyle);
      [reflexivity..|].
    exists st, d'. split; [exact Hcall|exact HStyle].
Defined.

(** C2, at the failing input.  On a new document with the embedded
    stylesheet the calls [MakeStyle("a1","fill:red")],
    [MakeStyle("a","fill:green")], [MakeStyle("a","fill:blue")] register
    the class ["a1"] twice: the third call resolves the conflict on ["a"]
    to ["a1"], overwrites the entry of the first call in the class table
    and appends a second rule for [.a1]. *)
Theorem MakeStyle_class_collision :
  ∃ d,
    MakeStyles (NewDocument (Some (Conf.mk true false false false)))
               [("a1", "fill:red"); ("a", "fill:green"); ("a", "fill:blue")]
    = Some ([Styling.mk "a1" ""; Styling.mk "a" ""; Styling.mk "a1" ""], d) ∧
    map_get (styles.classMap (Document.styles d)) "a1" = Some "fill:blue" ∧
    Document.Style d = ".a1 {fill:red} .a {fill:green} .a1 {fill:blue}" ∧
    styles.nConflict (Document.styles d) = 1%Z.
Proof. eexists. vm_compute. by split_and!. Qed.

(** ** Joining strings *)

Lemma concat_cons_append (sep a b : string) (rest : list string) :
  String.concat sep ((a +:+ b) :: rest) = a +:+ String.concat sep (b :: rest).
Proof. destruct rest as [|c rest]; simpl; [done|]. by rewrite append_assoc. Qed.

Lemma concat_cons_cons (sep a b : string) (rest : list string) :
  String.concat sep (a :: b :: rest) = a +:+ sep +:+ String.concat sep (b :: rest).
Proof. reflexivity. Qed.

(** The builder loop of [strings.Join] computes the recursive join of the
    Standard Library. *)
Lemma Join_loop (sep e : string) (rest : list string) :
  foldl (λ b s, (b +:+ sep) +:+ s) e rest = String.concat sep (e :: rest).
Proof.
  revert e. induction rest as [|x rest IH]; intros e; simpl; [done|].
  rewrite IH, append_assoc, concat_cons_append.
  destruct rest; [done|]. by rewrite concat_cons_append.
Qed.

Lemma Join_concat (elems : list string) (sep : string) :
  strings.Join elems sep = String.concat sep elems.
Proof.
  destruct elems as [|e [|x rest]]; [done|done|].
  unfold strings.Join. apply Join_loop.
Qed.

Lemma concat_snoc (sep x : string) (l : list string) :
  String.concat sep (l ++ [x])
  = match l with
    | [] => x
    | _ :: _ => String.concat sep l +:+ sep +:+ x
    end.
Proof.
  induction l as [|a l IH]; [done|].
  destruct l as [|b l]; [done|].
  change ((a :: b :: l) ++ [x]) with (a :: b :: (l ++ [x])).
  change ((b :: l) ++ [x]) with (b :: (l ++ [x])) in IH.
  rewrite (concat_cons_cons sep a b (l ++ [x])), IH.
  rewrite (concat_cons_cons sep a b l). by rewrite !append_assoc.
Qed.

Lemma concat_length (sep : string) (l : list string) :
  String.length (String.concat sep l)
  = sum_list (String.length <$> l) + String.length sep * (length l - 1).
Proof.
  induction l as [|a l IH]; [simpl; lia|].
  destruct l as [|b l]; [simpl; lia|].
  rewrite concat_cons_cons, !length_append, IH. simpl. lia.
Qed.

(** ** Reading a space-separated list back *)

Lemma space_fields_not_nil (s : string) : space_fields s ≠ [].
Proof.
  induction s as [|c s IH]; simpl; [done|].
  case_bool_decide; [done|]. by destruct (space_fields s).
Qed.

Lemma space_fields_free (w : string) :
  space_free w = true → space_fields w = [w].
Proof.
  induction w as [|c w IH]; simpl; [done|].
  intros [Hc Hw]%andb_true_iff. apply bool_decide_eq_true in Hc.
  rewrite bool_decide_eq_false_2 by done. by rewrite IH.
Qed.

Lemma space_fields_append (w s : string) :
  space_free w = true →
  space_fields (w +:+ " " +:+ s) = w :: space_fields s.
Proof.
  induction w as [|c w IH]; [done|].
  intros H. simpl in H. apply andb_true_iff in H as [Hc Hw].
  apply bool_decide_eq_true in Hc.
  rewrite append_cons. cbn [space_fields].
  rewrite bool_decide_eq_false_2 by done. by rewrite IH.
Qed.

Lemma space_fields_concat (l : list string) :
  l ≠ [] →
  Forall (λ w, space_free w = true) l →
  space_fields (String.concat " " l) = l.
Proof.
  induction l as [|a l IH]; [done|]. intros _ Hall.
  apply Forall_cons in Hall as [Ha Hl].
  destruct l as [|b l]; [by apply space_fields_free|].
  rewrite concat_cons_cons, space_fields_append by done.
  by rewrite IH.
Qed.

(** ** Range loops that fill a slice *)

(** The loop [for i, x := range l { s[i] = f(x) }] on a slice [s] made
    with the length of [l] never leaves the slice and computes the image
    of [l]. *)
Lemma slice_set_middle {A} (pre suf : list A) (y v : A) :
  slice_set (pre ++ y :: suf) (length pre) v = Some (pre ++ v :: suf).
Proof.
  unfold slice_set. rewrite decide_True.
  - rewrite <- (Nat.add_0_r (length pre)) at 1. by rewrite insert_app_r.
  - rewrite length_app. simpl. lia.
Qed.

Lemma for_range_fill {A B} (f : A → B) (dflt : B) (l : list A) (pre : list B) :
  for_range (λ s i x, slice_set s i (f x))
            (pre ++ replicate (length l) dflt) (length pre) l
  = Some (pre ++ (f <$> l)).
Proof.
  revert pre. induction l as [|x l IH]; intros pre; [done|].
  cbn [for_range length replicate]. rewrite slice_set_middle.
  specialize (IH (pre ++ [f x])). rewrite length_app in IH. simpl in IH.
  rewrite Nat.add_1_r in IH. rewrite <- !app_assoc in IH. exact IH.
Qed.

Lemma for_range_fill_0 {A B} (f : A → B) (dflt : B) (l : list A) :
  for_range (λ s i x, slice_set s i (f x)) (replicate (length l) dflt) 0 l
  = Some (f <$> l).
Proof. apply (for_range_fill f dflt l []). Qed.

Lemma slice_get_middle {A} (pre suf : list A) (x : A) :
  slice_get (pre ++ x :: suf) (length pre) = Some x.
Proof. unfold slice_get. by apply list_lookup_middle. Qed.

(** The loop [for ia := range l { args = append(args, l[ia].String()) }]. *)
Lemma for_range_append {A B} (f : A → B) (l pre : list A) (acc : list B) :
  for_range (λ args ia (_ : A),
               a ← slice_get (pre ++ l) ia; Some (args ++ [f a]))
            acc (length pre) l
  = Some (acc ++ (f <$> l)).
Proof.
  revert pre acc. induction l as [|x l IH]; intros pre acc; cbn [for_range].
  - simpl. by rewrite app_nil_r.
  - rewrite slice_get_middle. cbn [mbind option_bind].
    specialize (IH (pre ++ [x]) (acc ++ [f x])).
    rewrite length_app in IH. simpl in IH. rewrite Nat.add_1_r in IH.
    rewrite <- !app_assoc in IH. exact IH.
Qed.

Lemma for_range_append_0 {A B} (f : A → B) (l : list A) :
  for_range (λ args ia (_ : A), a ← slice_get l ia; Some (args ++ [f a])) [] 0 l
  = Some (f <$> l).
Proof. exact (for_range_append f l [] []). Qed.

(** ** The marshalers *)

Section MarshalProperties.

  Variable FormatFloat : float64 → ascii → Z → Z → string.

  (** The string the loop of [TransformList.MarshalXMLAttr] stores for one
      operation is the functional-call string of the specification. *)
Lemma call_string_spec (t : Transform.t) :
  ((Transform.Name t +:+ "(") +:+
   strings.Join (TransformArg_String FormatFloat <$> Transform.Args t) ",") +:+ ")"
  = spec_call_string FormatFloat t.
Proof.
  unfold spec_call_string. by rewrite Join_concat, !append_assoc.
Qed.

Lemma pair_string_spec (pt : float64 * float64) :
  (FormatFloat (fst pt) "g"%char (-1)%Z 64%Z +:+ ",") +:+
  FormatFloat (snd pt) "g"%char (-1)%Z 64%Z
  = spec_pair_string FormatFloat pt.
Proof. unfold spec_pair_string. by rewrite append_assoc. Qed.

Lemma makeListAttr_eq (name : xml.Name) (values : list string) :
  makeListAttr name values
  = (xml.mkAttr name (String.concat " " values), None).
Proof. unfold makeListAttr. simpl. by rewrite Join_concat. Qed.

Lemma Ints_MarshalXMLAttr_eq (ints : list Z) (name : xml.Name) :
  Ints_MarshalXMLAttr ints name
  = Some (xml.mkAttr name (String.concat " " (strconv.Itoa <$> ints)), None).
Proof.
  unfold Ints_MarshalXMLAttr. rewrite for_range_fill_0. simpl.
  by rewrite makeListAttr_eq.
Qed.

Lemma Points_MarshalXMLAttr_eq (pts : Points) (name : xml.Name) :
  Points_MarshalXMLAttr FormatFloat pts name
  = Some (xml.mkAttr name
            (String.concat " " (spec_pair_string FormatFloat <$> pts)), None).
Proof.
  unfold Points_MarshalXMLAttr. cbv zeta. rewrite for_range_fill_0.
  cbn [mbind option_bind]. rewrite makeListAttr_eq.
  erewrite list_fmap_ext; [reflexivity|].
  intros _ pt _. apply pair_string_spec.
Qed.

Lemma TransformList_loop (tl : TransformList) (pre args : list string) :
  ∃ args',
    for_range
      (λ '(s, args) i t,
         let args := take 0 args in
         args ← for_range
           (λ args ia _,
              a ← slice_get (Transform.Args t) ia;
              Some (args ++ [TransformArg_String FormatFloat a]))
           args 0 (Transform.Args t);
         s ← slice_set s i
               (((Transform.Name t +:+ "(") +:+ strings.Join args ",") +:+ ")");
         Some (s, args))
      (pre ++ replicate (length tl) "", args) (length pre) tl
    = Some (pre ++ (spec_call_string FormatFloat <$> tl), args').
Proof.
  revert pre args. induction tl as [|t tl IH]; intros pre args.
  - by exists args.
  - cbn [for_range length replicate]. cbv zeta.
    change (take 0 args) with (@nil string).
    rewrite for_range_append_0. cbn [mbind option_bind].
    rewrite slice_set_middle. cbn [mbind option_bind].
    rewrite call_string_spec.
    destruct (IH (pre ++ [spec_call_string FormatFloat t])
                 (TransformArg_String FormatFloat <$> Transform.Args t))
      as [args' IH'].
    rewrite length_app in IH'. simpl in IH'. rewrite Nat.add_1_r in IH'.
    rewrite <- !app_assoc in IH'. by exists args'.
Qed.

Lemma TransformList_MarshalXMLAttr_eq (tl : TransformList) (name : xml.Name) :
  TransformList_MarshalXMLAttr FormatFloat tl name
  = Some (xml.mkAttr name
            (String.concat " " (spec_call_string FormatFloat <$> tl)), None).
Proof.
  destruct (TransformList_loop tl [] (replicate 8 "")) as [args' Hloop].
  unfold TransformList_MarshalXMLAttr. cbv zeta.
  set (loop := for_range _ _ 0 tl).
  assert (loop = Some (spec_call_string FormatFloat <$> tl, args')) as ->
    by exact Hloop.
  cbn [mbind option_bind]. by rewrite makeListAttr_eq.
Qed.

End MarshalProperties.

(** ** Claims on the attribute marshalers *)

(** C6.  [TransformList.MarshalXMLAttr] returns, without error, the
    attribute whose value is the functional-call strings of the
    operations, in the order of the list, joined by one space: the empty
    list gives the empty string, and appending an operation appends its
    string, after one space when the list was not empty.  The string of an
    operation is its name, [(], its arguments joined by a comma, and [)].
    The chain of [TranslateInt(1,2)] and [RotateOrig(30)] gives
    [translate(1,2) rotate(30)], given that the float formatter prints 30
    as [30]. *)
Theorem TransformList_MarshalXMLAttr_order
    (FormatFloat : float64 → ascii → Z → Z → string)
    (name : xml.Name) (tl : TransformList) (t : Transform.t) (x y : Z) :
  let call := spec_call_string FormatFloat in
  let value := λ l : TransformList, String.concat " " (call <$> l) in
  TransformList_MarshalXMLAttr FormatFloat tl name
  = Some (xml.mkAttr name (value tl), None) ∧
  TransformList_MarshalXMLAttr FormatFloat [] name
  = Some (xml.mkAttr name "", None) ∧
  TransformList_MarshalXMLAttr FormatFloat (TransformList_append tl t) name
  = Some (xml.mkAttr name
            (match tl with
             | [] => call t
             | _ :: _ => value tl +:+ " " +:+ call t
             end), None) ∧
  call (translateInt x y)
  = "translate(" +:+ strconv.Itoa x +:+ "," +:+ strconv.Itoa y +:+ ")" ∧
  (FormatFloat (float64_of_int 30) "g"%char (-1)%Z 64%Z = "30" →
   TransformList_MarshalXMLAttr FormatFloat
     (RotateOrig (TranslateInt [] 1 2) (float64_of_int 30)) name
   = Some (xml.mkAttr name "translate(1,2) rotate(30)", None)).
Proof.
  intros call value. split_and!.
  - apply TransformList_MarshalXMLAttr_eq.
  - apply TransformList_MarshalXMLAttr_eq.
  - rewrite TransformList_MarshalXMLAttr_eq. unfold TransformList_append.
    rewrite fmap_app. simpl fmap at 2.
    change (list_fmap _ _ (spec_call_string FormatFloat) [t]) with [call t].
    fold call. rewrite concat_snoc. by destruct tl.
  - unfold call, spec_call_string. simpl. by rewrite !append_assoc.
  - intros H30. rewrite TransformList_MarshalXMLAttr_eq.
    unfold RotateOrig, TranslateInt, TransformList_append, ftrans, translateInt.
    simpl. unfold spec_call_string. simpl. by rewrite H30.
Qed.

Lemma TransformList_MarshalXMLAttr_order_witness :
  TransformList_MarshalXMLAttr FormatFloat_integral
    (RotateOrig (TranslateInt [] 1 2) (float64_of_int 30))
    (xml.mkName "" "transform")
  = Some (xml.mkAttr (xml.mkName "" "transform") "translate(1,2) rotate(30)",
          None).
Proof.
  apply (TransformList_MarshalXMLAttr_order FormatFloat_integral
           (xml.mkName "" "transform") [] (translateInt 0 0) 0 0).
  vm_compute. reflexivity.
Defined.

(** C7.  [makeListAttr] returns, without error, the attribute whose value
    is the given strings joined by one space: the empty string for no
    element, the element itself for one, and otherwise the first element,
    one space and the join of the others.  Nothing is put before the first
    or after the last element: the length is the sum of the lengths plus
    one per gap, and when no element contains a space, cutting the value
    at its spaces gives the elements back.  [Points.MarshalXMLAttr] hands
    over one string per pair, the two numbers joined by a comma, so that
    the points (10,20), (30,40) give [10,20 30,40], given that the float
    formatter prints these four numbers as their decimal numerals. *)
Theorem makeListAttr_space_joined
    (FormatFloat : float64 → ascii → Z → Z → string)
    (name : xml.Name) (values : list string) (a b : string) (pts : Points) :
  let value := λ l, xml.Value (fst (makeListAttr name l)) in
  makeListAttr name values = (xml.mkAttr name (value values), None) ∧
  value values = String.concat " " values ∧
  value [] = "" ∧
  value [a] = a ∧
  value (a :: b :: values) = a +:+ " " +:+ value (b :: values) ∧
  value (values ++ [a])
  = match values with [] => a | _ :: _ => value values +:+ " " +:+ a end ∧
  String.length (value values)
  = sum_list (String.length <$> values) + (length values - 1) ∧
  (values ≠ [] → Forall (λ w, space_free w = true) values →
   space_fields (value values) = values) ∧
  Points_MarshalXMLAttr FormatFloat pts name
  = Some (makeListAttr name (spec_pair_string FormatFloat <$> pts)) ∧
  ((∀ z, z ∈ [10; 20; 30; 40]%Z →
         FormatFloat (float64_of_int z) "g"%char (-1)%Z 64%Z = strconv.Itoa z) →
   Points_MarshalXMLAttr FormatFloat
     (Points_AddInt (Points_AddInt [] 10 20) 30 40) name
   = Some (xml.mkAttr name "10,20 30,40", None)).
Proof.
  intros value.
  assert (∀ l, value l = String.concat " " l) as Hvalue.
  { intros l. unfold value. by rewrite makeListAttr_eq. }
  split_and!.
  - by rewrite Hvalue, makeListAttr_eq.
  - apply Hvalue.
  - reflexivity.
  - reflexivity.
  - by rewrite !Hvalue.
  - rewrite Hvalue, concat_snoc. destruct values; [done|]. by rewrite Hvalue.
  - rewrite Hvalue, concat_length. simpl. lia.
  - intros Hne Hfree. rewrite Hvalue. by apply space_fields_concat.
  - by rewrite Points_MarshalXMLAttr_eq, makeListAttr_eq.
  - intros Hfmt. rewrite Points_MarshalXMLAttr_eq.
    unfold Points_AddInt, spec_pair_string. simpl.
    rewrite !Hfmt by set_solver. reflexivity.
Qed.

Lemma makeListAttr_space_joined_witness :
  space_fields (xml.Value (fst (makeListAttr (xml.mkName "" "points")
                                             ["10,20"; "30,40"])))
  = ["10,20"; "30,40"] ∧
  Points_MarshalXMLAttr FormatFloat_integral
    (Points_AddInt (Points_AddInt [] 10 20) 30 40) (xml.mkName "" "points")
  = Some (xml.mkAttr (xml.mkName "" "points") "10,20 30,40", None).
Proof.
  destruct (makeListAttr_space_joined FormatFloat_integral
              (xml.mkName "" "points") ["10,20"; "30,40"] "" "" [])
    as (_ & _ & _ & _ & _ & _ & _ & Hfields & _ & Hpoints).
  split.
  - apply Hfields; [discriminate|]. repeat constructor.
  - apply Hpoints. intros z Hz.
    repeat (apply elem_of_cons in Hz as [->|Hz]; [vm_compute; reflexivity|]).
    by apply elem_of_nil in Hz.
Defined.

(** ** Claim on the shape constructors *)

(** C8.  [EllipseInt] appends one element to the list, of the struct type
    [ellipse]; the tag of its [XMLName] field names the element [circle],
    not [ellipse], and its field tags give the attributes [cx], [cy],
    [rx], [ry], holding the four arguments converted to [float64].  The
    declaration is the same in both versions of shapes.go. *)
Theorem EllipseInt_tag (el : ElemList) (cx cy rx ry : Z) :
  ∃ e : ellipse.t,
    fst (EllipseInt el cx cy rx ry) = el ++ [p_ellipse e] ∧
    fst (EllipseInt el cx cy rx ry) !! snd (EllipseInt el cx cy rx ry)
    = Some (p_ellipse e) ∧
    XMLName (p_ellipse e) = "circle" ∧
    XMLName (p_ellipse e) ≠ "ellipse" ∧
    ellipse.attrs e
    = [("cx", float64_of_int cx); ("cy", float64_of_int cy);
       ("rx", float64_of_int rx); ("ry", float64_of_int ry)].
Proof.
  eexists. unfold EllipseInt, ElemList_append. cbn [fst snd].
  split_and!; [reflexivity| |reflexivity|discriminate|reflexivity].
  by apply list_lookup_middle.
Qed.

(* ================================================================== *)
(** * Further properties of the package *)
(* ================================================================== *)

(** ** More on strings *)

Lemma substring_append_l (s t : string) :
  substring 0 (String.length s) (s +:+ t) = s.
Proof.
  induction s as [|a s IH].
  - by destruct t.
  - rewrite append_cons. simpl. by rewrite IH.
Qed.

Lemma substring_append_r (s t : string) :
  substring (String.length s) (String.length t) (s +:+ t) = t.
Proof.
  induction s as [|a s IH].
  - rewrite append_nil_l. simpl. induction t as [|b t IHt]; simpl; [done|].
    by rewrite IHt.
  - rewrite append_cons. simpl. exact IH.
Qed.

Lemma HasSuffix_append (s suffix : string) :
  strings.HasSuffix (s +:+ suffix) suffix = true.
Proof.
  unfold strings.HasSuffix. rewrite length_append.
  replace (String.length s + String.length suffix - String.length suffix)
    with (String.length s) by lia.
  rewrite substring_append_r.
  rewrite !bool_decide_eq_true_2; [done|done|lia].
Qed.

Lemma TrimSuffix_append (s suffix : string) :
  strings.TrimSuffix (s +:+ suffix) suffix = s.
Proof.
  unfold strings.TrimSuffix. rewrite HasSuffix_append, length_append.
  replace (String.length s + String.length suffix - String.length suffix)
    with (String.length s) by lia.
  apply substring_append_l.
Qed.

Lemma append_ne_self (s t : string) : t ≠ "" → s +:+ t ≠ s.
Proof.
  intros Ht Heq. apply (f_equal String.length) in Heq.
  rewrite length_append in Heq. destruct t; [done|]. simpl in Heq. lia.
Qed.


(** ** The numerals of [strconv.Itoa] *)

Lemma string_of_uint_space_free (d : Decimal.uint) :
  space_free (NilEmpty.string_of_uint d) = true.
Proof. induction d; simpl; by rewrite ?IHd. Qed.

Lemma Itoa_space_free (i : Z) : space_free (strconv.Itoa i) = true.
Proof.
  unfold strconv.Itoa, NilZero.string_of_int, NilZero.string_of_uint.
  destruct (Z.to_int i) as [d|d]; destruct d; simpl;
    by rewrite ?string_of_uint_space_free.
Qed.

Lemma Itoa_nonempty (i : Z) : strconv.Itoa i ≠ "".
Proof.
  unfold strconv.Itoa, NilZero.string_of_int, NilZero.string_of_uint.
  by destruct (Z.to_int i) as [d|d]; destruct d.
Qed.

Lemma parse_int_Itoa (i : Z) : parse_int (strconv.Itoa i) = Some i.
Proof.
  unfold parse_int, strconv.Itoa.
  rewrite NilZero.isi.
  - simpl. by rewrite DecimalZ.of_to.
  - destruct i as [|p|p]; simpl; try done.
    intros [= H]. by apply DecimalPos.Unsigned.to_uint_nonnil in H.
  - destruct i as [|p|p]; simpl; try done.
    intros [= H]. by apply DecimalPos.Unsigned.to_uint_nonnil in H.
Qed.

(** ** More on [Document.MakeStyle] *)

Lemma MakeStyle_frame_step (d d' : Document.t) (name style : string) (st : Styling.t) :
  MakeStyle d name style = Some (st, d') →
  Document.ViewBox d' = Document.ViewBox d ∧
  Document.Width d' = Document.Width d ∧
  Document.Height d' = Document.Height d ∧
  Document.Container d' = Document.Container d ∧
  Document.NameSpace d' = Document.NameSpace d ∧
  Document.conf d' = Document.conf d ∧
  ∃ suffix, Document.Style d' = Document.Style d +:+ suffix.
Proof.
  unfold MakeStyle. destruct d as [vb w h sty cont [dm cm n] ns cf].
  unfold Document.ID. cbn -[map_get map_set].
  destruct cf as [conf|]; [|done]. cbn -[map_get map_set].
  destruct (Conf.GenerateEmbeddedStylesheet conf); cbn -[map_get map_set].
  - intros H.
    repeat match type of H with
    | context [match ?x with _ => _ end] => destruct x eqn:?; cbn -[map_get map_set] in H
    | context [mbind _ ?x] => destruct x eqn:?; cbn -[map_get map_set] in H
    end; try discriminate.
    all: injection H as <- <-; cbn; split_and!; try done.
    all: try (by exists ""; rewrite append_nil_r).
    all: eexists; repeat case_match; rewrite ?append_assoc; reflexivity.
  - case_bool_decide; intros [= <- <-]; cbn; split_and!; try done;
      by exists ""; rewrite append_nil_r.
Qed.

(** X1.  A run of [MakeStyle] calls changes nothing of the document but the
    stylesheet text and the style table: the view box, the sizes, the
    container with its identifier and elements, the name space and the
    configuration are as before, and the stylesheet text is the text
    before the run followed by what the run appended. *)
Theorem MakeStyles_frame (calls : list (string * string)) (d d' : Document.t)
    (sts : list Styling.t) :
  MakeStyles d calls = Some (sts, d') →
  length sts = length calls ∧
  Document.ViewBox d' = Document.ViewBox d ∧
  Document.Width d' = Document.Width d ∧
  Document.Height d' = Document.Height d ∧
  Document.Container d' = Document.Container d ∧
  Document.NameSpace d' = Document.NameSpace d ∧
  Document.conf d' = Document.conf d ∧
  ∃ suffix, Document.Style d' = Document.Style d +:+ suffix.
Proof.
  revert d sts. induction calls as [|[name style] calls IH]; intros d sts.
  - intros [= <- <-]. split_and!; try done. exists "". by rewrite append_nil_r.
  - cbn [MakeStyles]. intros H.
    destruct (MakeStyle d name style) as [[st d1]|] eqn:Hcall; [|done].
    cbn [mbind option_bind] in H.
    destruct (MakeStyles d1 calls) as [[sts' d2]|] eqn:Hrest; [|done].
    cbn [mbind option_bind] in H. injection H as <- <-.
    apply MakeStyle_frame_step in Hcall
      as (H1 & H2 & H3 & H4 & H5 & H6 & sfx1 & H7).
    apply IH in Hrest as (H0' & H1' & H2' & H3' & H4' & H5' & H6' & sfx2 & H7').
    split_and!; try congruence.
    + simpl. by rewrite H0'.
    + exists (sfx1 +:+ sfx2). by rewrite H7', H7, append_assoc.
Qed.

Lemma MakeStyle_cases (d d' : Document.t) (conf : Conf.t) (name style : string)
    (st : Styling.t) :
  wf_Document d →
  Document.conf d = Some conf →
  MakeStyle d name style = Some (st, d') →
  (Conf.GenerateEmbeddedStylesheet conf = false ∧ d' = d) ∨
  (Conf.GenerateEmbeddedStylesheet conf = true ∧
   map_get (styles.defMap (Document.styles d)) style = Some (Styling.Class st) ∧
   Styling.Style st = "" ∧ d' = d) ∨
  (Conf.GenerateEmbeddedStylesheet conf = true ∧
   map_get (styles.defMap (Document.styles d)) style = None ∧
   st = Styling.mk (assigned_class d name) "" ∧
   styles.nConflict (Document.styles d') = next_nConflict d name ∧
   (∀ k, map_get (styles.classMap (Document.styles d')) k
         = if decide (k = assigned_class d name) then Some style
           else map_get (styles.classMap (Document.styles d)) k) ∧
   (∀ k, map_get (styles.defMap (Document.styles d')) k
         = if Conf.StylesheetUnifyStyles conf && bool_decide (k = style)
           then Some (assigned_class d name)
           else map_get (styles.defMap (Document.styles d)) k)).
Proof.
  intros Hwf Hc Hcall.
  destruct (Conf.GenerateEmbeddedStylesheet conf) eqn:He.
  - destruct (map_get (styles.defMap (Document.styles d)) style)
      as [class|] eqn:Hk.
    + right. left.
      rewrite (MakeStyle_known d conf name style class) in Hcall by done.
      by injection Hcall as <- <-.
    + right. right.
      destruct (MakeStyle_new d conf name style Hwf Hc He Hk)
        as (d1 & Hcall1 & _ & _ & Hn & _ & _ & Hcm & Hdm & _).
      rewrite Hcall1 in Hcall. injection Hcall as <- <-. by split_and!.
  - left. rewrite (MakeStyle_inline_eq d conf) in Hcall by done.
    by injection Hcall as _ <-.
Qed.

(** X2.  With the embedded stylesheet, a style text that is not in the
    style table and a requested name that is not in the class table:
    [MakeStyle] registers and returns the requested name as it is, leaves
    the conflict counter alone and changes no other entry of the class
    table. *)
Theorem MakeStyle_fresh_name (d : Document.t) (conf : Conf.t)
    (name style : string) :
  wf_Document d →
  Document.conf d = Some conf →
  Conf.GenerateEmbeddedStylesheet conf = true →
  map_get (styles.defMap (Document.styles d)) style = None →
  map_get (styles.classMap (Document.styles d)) name = None →
  ∃ d', MakeStyle d name style = Some (Styling.mk name "", d') ∧
        styles.nConflict (Document.styles d')
        = styles.nConflict (Document.styles d) ∧
        map_get (styles.classMap (Document.styles d')) name = Some style ∧
        (∀ k, k ≠ name →
              map_get (styles.classMap (Document.styles d')) k
              = map_get (styles.classMap (Document.styles d)) k).
Proof.
  intros Hwf Hc He Hnew Hfree.
  destruct (MakeStyle_new d conf name style Hwf Hc He Hnew)
    as (d' & Hcall & _ & _ & Hn & _ & _ & Hcm & _).
  unfold assigned_class, next_nConflict in Hcall, Hn, Hcm.
  rewrite Hfree in Hcall, Hn, Hcm.
  exists d'. split_and!; [done|done|..].
  - rewrite Hcm. by rewrite decide_True.
  - intros k Hk. rewrite Hcm. by rewrite decide_False.
Qed.

Lemma MakeStyle_fresh_name_witness :
  ∃ d', MakeStyle (doc_with_a (Conf.mk true false false false)) "b" "fill:blue"
        = Some (Styling.mk "b" "", d') ∧
        styles.nConflict (Document.styles d') = 0%Z.
Proof.
  destruct (MakeStyle_fresh_name (doc_with_a (Conf.mk true false false false))
              (Conf.mk true false false false) "b" "fill:blue")
    as (d' & Hcall & Hn & _).
  - wf_by_evaluation.
  - vm_compute; reflexivity.
  - reflexivity.
  - vm_compute; reflexivity.
  - vm_compute; reflexivity.
  - exists d'. split; [exact Hcall|exact Hn].
Defined.

(** Induction over a run of calls on a well-formed document. *)
Lemma MakeStyles_wf_ind
    (P : Document.t → list (string * string) → list Styling.t → Document.t → Prop) :
  (∀ d, wf_Document d → P d [] [] d) →
  (∀ d name style st d1 calls sts d2,
     wf_Document d → MakeStyle d name style = Some (st, d1) →
     wf_Document d1 → Document.conf d1 = Document.conf d →
     MakeStyles d1 calls = Some (sts, d2) →
     P d1 calls sts d2 → P d ((name, style) :: calls) (st :: sts) d2) →
  ∀ calls d sts d',
    wf_Document d → MakeStyles d calls = Some (sts, d') → P d calls sts d'.
Proof.
  intros Hnil Hcons. induction calls as [|[name style] calls IH];
    intros d sts d' Hwf H.
  - injection H as <- <-. by apply Hnil.
  - cbn [MakeStyles] in H.
    destruct (MakeStyle_wf d name style Hwf) as (st & d1 & Hcall & Hwf1 & Hc1).
    rewrite Hcall in H. cbn [mbind option_bind] in H.
    destruct (MakeStyles d1 calls) as [[sts' d2]|] eqn:Hrest; [|done].
    cbn [mbind option_bind] in H. injection H as <- <-.
    eapply Hcons; eauto.
Qed.

Lemma MakeStyle_classMap_step (d d' : Document.t) (name style : string)
    (st : Styling.t) :
  wf_Document d →
  MakeStyle d name style = Some (st, d') →
  (∀ k, k ≠ Styling.Class st →
        map_get (styles.classMap (Document.styles d')) k
        = map_get (styles.classMap (Document.styles d)) k) ∧
  (∀ k, is_Some (map_get (styles.classMap (Document.styles d)) k) →
        is_Some (map_get (styles.classMap (Document.styles d')) k)).
Proof.
  intros Hwf Hcall. pose proof Hwf as ([conf Hc] & _).
  destruct (MakeStyle_cases d d' conf name style st Hwf Hc Hcall)
    as [(_ & ->)|[(_ & _ & _ & ->)|(_ & _ & -> & _ & Hcm & _)]]; [done..|].
  simpl. split; intros k Hk; rewrite Hcm.
  - by rewrite decide_False.
  - by case_decide.
Qed.

(** X3.  A run of calls changes the class table only at the class names the
    calls return, and removes no key. *)
Theorem MakeStyles_classMap_other (calls : list (string * string))
    (d d' : Document.t) (sts : list Styling.t) :
  wf_Document d →
  MakeStyles d calls = Some (sts, d') →
  (∀ k, k ∉ Styling.Class <$> sts →
        map_get (styles.classMap (Document.styles d')) k
        = map_get (styles.classMap (Document.styles d)) k) ∧
  (∀ k, is_Some (map_get (styles.classMap (Document.styles d)) k) →
        is_Some (map_get (styles.classMap (Document.styles d')) k)).
Proof.
  revert calls d sts d'. apply MakeStyles_wf_ind.
  - done.
  - intros d name style st d1 calls sts d2 Hwf Hcall Hwf1 _ _ [IH1 IH2].
    destruct (MakeStyle_classMap_step d d1 name style st Hwf Hcall) as [H1 H2].
    split.
    + intros k Hk. rewrite fmap_cons, not_elem_of_cons in Hk.
      destruct Hk as [Hk1 Hk2]. rewrite IH1 by done. by apply H1.
    + intros k Hk. by apply IH2, H2.
Qed.

Lemma MakeStyles_classMap_other_witness :
  map_get (styles.classMap
             (Document.styles (doc_with_a (Conf.mk true false false false))))
          "b"
  = None.
Proof.
  destruct (MakeStyles_classMap_other [("a", "fill:red;")]
              (NewDocument (Some (Conf.mk true false false false)))
              (doc_with_a (Conf.mk true false false false))
              [Styling.mk "a" ""]) as [H _].
  - wf_by_evaluation.
  - vm_compute; reflexivity.
  - rewrite (H "b"); [reflexivity|].
    intros Hin. apply list_elem_of_singleton in Hin. discriminate.
Defined.

(** ** Unified styles *)

Lemma MakeStyle_def_kept (d d' : Document.t) (name style s c : string)
    (st : Styling.t) :
  wf_Document d →
  MakeStyle d name style = Some (st, d') →
  map_get (styles.defMap (Document.styles d)) s = Some c →
  map_get (styles.defMap (Document.styles d')) s = Some c.
Proof.
  intros Hwf Hcall Hs. pose proof Hwf as ([conf Hc] & _).
  destruct (MakeStyle_cases d d' conf name style st Hwf Hc Hcall)
    as [(_ & ->)|[(_ & _ & _ & ->)|(_ & Hnew & _ & _ & _ & Hdm)]]; [done..|].
  rewrite Hdm. destruct (decide (s = style)) as [->|Hne]; [congruence|].
  by rewrite bool_decide_eq_false_2, andb_false_r.
Qed.

Lemma MakeStyle_def_after (d d' : Document.t) (conf : Conf.t)
    (name style : string) (st : Styling.t) :
  wf_Document d →
  Document.conf d = Some conf →
  Conf.GenerateEmbeddedStylesheet conf = true →
  Conf.StylesheetUnifyStyles conf = true →
  MakeStyle d name style = Some (st, d') →
  map_get (styles.defMap (Document.styles d')) style = Some (Styling.Class st) ∧
  Styling.Style st = "".
Proof.
  intros Hwf Hc He Hu Hcall.
  destruct (MakeStyle_cases d d' conf name style st Hwf Hc Hcall)
    as [(He' & _)|[(_ & Hk & Hst & ->)|(_ & _ & -> & _ & _ & Hdm)]].
  - congruence.
  - done.
  - rewrite Hdm, Hu. simpl. by rewrite bool_decide_eq_true_2.
Qed.

Lemma MakeStyles_known_class (calls : list (string * string))
    (d d' : Document.t) (sts : list Styling.t) :
  wf_Document d →
  MakeStyles d calls = Some (sts, d') →
  ∀ conf s c j n,
    Document.conf d = Some conf →
    Conf.GenerateEmbeddedStylesheet conf = true →
    map_get (styles.defMap (Document.styles d)) s = Some c →
    calls !! j = Some (n, s) →
    sts !! j = Some (Styling.mk c "").
Proof.
  revert calls d sts d'. apply (MakeStyles_wf_ind
    (λ d calls sts d', ∀ conf s c j n,
       Document.conf d = Some conf →
       Conf.GenerateEmbeddedStylesheet conf = true →
       map_get (styles.defMap (Document.styles d)) s = Some c →
       calls !! j = Some (n, s) → sts !! j = Some (Styling.mk c ""))).
  - intros d _ conf s c j n _ _ _ Hj. by rewrite lookup_nil in Hj.
  - intros d name style st d1 calls sts d2 Hwf Hcall Hwf1 Hc1 _ IH
      conf s c j n Hc He Hs Hj.
    destruct j as [|j]; simpl in *.
    + injection Hj as -> ->.
      rewrite (MakeStyle_known d conf n s c) in Hcall by done.
      injection Hcall as <- _. reflexivity.
    + apply (IH conf s c j n); [congruence|done| |done].
      exact (MakeStyle_def_kept d d1 name style s c st Hwf Hcall Hs).
Qed.

(** X4.  With unified styles, all the calls of a run that pass the same
    style text return the same [Styling]. *)
Theorem MakeStyles_unify_dedup (calls : list (string * string))
    (d d' : Document.t) (sts : list Styling.t) (conf : Conf.t) :
  wf_Document d →
  MakeStyles d calls = Some (sts, d') →
  Document.conf d = Some conf →
  Conf.GenerateEmbeddedStylesheet conf = true →
  Conf.StylesheetUnifyStyles conf = true →
  ∀ i j ni nj s sti stj,
    calls !! i = Some (ni, s) → calls !! j = Some (nj, s) →
    sts !! i = Some sti → sts !! j = Some stj →
    sti = stj.
Proof.
  intros Hwf Hcalls. revert conf.
  revert calls d sts d' Hwf Hcalls. apply (MakeStyles_wf_ind
    (λ d calls sts d', ∀ conf, Document.conf d = Some conf →
       Conf.GenerateEmbeddedStylesheet conf = true →
       Conf.StylesheetUnifyStyles conf = true →
       ∀ i j ni nj s sti stj,
         calls !! i = Some (ni, s) → calls !! j = Some (nj, s) →
         sts !! i = Some sti → sts !! j = Some stj → sti = stj)).
  - intros d _ conf _ _ _ i j ni nj s sti stj Hi. by rewrite lookup_nil in Hi.
  - intros d name style st d1 calls sts d2 Hwf Hcall Hwf1 Hc1 Hrest IH
      conf Hc He Hu i j ni nj s sti stj Hi Hj Hsi Hsj.
    assert (∀ k nk stk, calls !! k = Some (nk, style) → sts !! k = Some stk →
                        stk = st) as Hlater.
    { intros k nk stk Hk Hstk.
      destruct (MakeStyle_def_after d d1 conf name style st) as [Hd Hst];
        [done..|].
      pose proof (MakeStyles_known_class calls d1 d2 sts Hwf1 Hrest conf style
                    (Styling.Class st) k nk) as Hk'.
      rewrite Hk' in Hstk; [|congruence|done|done|done].
      injection Hstk as <-. destruct st. simpl in *. by subst. }
    destruct i as [|i], j as [|j]; simpl in *.
    + congruence.
    + injection Hi as -> ->. injection Hsi as ->. symmetry.
      exact (Hlater j nj stj Hj Hsj).
    + injection Hj as -> ->. injection Hsj as ->.
      exact (Hlater i ni sti Hi Hsi).
    + exact (IH conf (eq_trans Hc1 Hc) He Hu i j ni nj s sti stj Hi Hj Hsi Hsj).
Qed.

Lemma MakeStyles_unify_dedup_witness :
  let d := NewDocument (Some (Conf.mk true true false false)) in
  let calls := [("a", "fill:red;"); ("b", "fill:blue"); ("c", "fill:red;")] in
  run_classes d calls !! 0 = Some (Styling.mk "a" "") ∧
  run_classes d calls !! 2 = Some (Styling.mk "a" "") ∧
  Styling.mk "a" "" = Styling.mk "a" "".
Proof.
  intros d calls.
  assert (run_classes d calls !! 0 = Some (Styling.mk "a" "")) as H0
    by (vm_compute; reflexivity).
  assert (run_classes d calls !! 2 = Some (Styling.mk "a" "")) as H2
    by (vm_compute; reflexivity).
  split; [exact H0|]. split; [exact H2|].
  apply (MakeStyles_unify_dedup calls d (run_document d calls)
           (run_classes d calls) (Conf.mk true true false false))
    with (i := 0) (j := 2) (ni := "a") (nj := "c") (s := "fill:red;").
  - wf_by_evaluation.
  - vm_compute; reflexivity.
  - reflexivity.
  - reflexivity.
  - reflexivity.
  - reflexivity.
  - reflexivity.
  - exact H0.
  - exact H2.
Defined.

Lemma MakeStyle_classes_recorded (d d' : Document.t) (conf : Conf.t)
    (name style : string) (st : Styling.t) :
  wf_Document d →
  Document.conf d = Some conf →
  Conf.GenerateEmbeddedStylesheet conf = true →
  Conf.StylesheetUnifyStyles conf = true →
  MakeStyle d name style = Some (st, d') →
  classes_recorded d → classes_recorded d'.
Proof.
  intros Hwf Hc He Hu Hcall Hrec.
  destruct (MakeStyle_cases d d' conf name style st Hwf Hc Hcall)
    as [(_ & ->)|[(_ & _ & _ & ->)|(_ & Hnew & _ & _ & Hcm & Hdm)]]; [done..|].
  intros class s. rewrite Hcm, Hdm, Hu. simpl.
  case_decide as Hclass.
  - intros [= <-]. rewrite bool_decide_eq_true_2 by done. by rewrite Hclass.
  - intros Hs. apply Hrec in Hs as Hs'.
    rewrite bool_decide_eq_false_2; [done|]. intros ->. congruence.
Qed.

Lemma NewDocument_classes_recorded (c : option Conf.t) :
  classes_recorded (NewDocument c).
Proof. intros class style. by rewrite NewDocument_styles. Qed.

Lemma MakeStyles_classes_recorded (calls : list (string * string))
    (d d' : Document.t) (sts : list Styling.t) (conf : Conf.t) :
  Conf.GenerateEmbeddedStylesheet conf = true →
  Conf.StylesheetUnifyStyles conf = true →
  wf_Document d →
  MakeStyles d calls = Some (sts, d') →
  Document.conf d = Some conf →
  classes_recorded d → classes_recorded d'.
Proof.
  intros He Hu. revert calls d sts d'.
  apply (MakeStyles_wf_ind (λ d calls sts d',
    Document.conf d = Some conf → classes_recorded d → classes_recorded d')).
  - done.
  - intros d name style st d1 calls sts d2 Hwf Hcall Hwf1 Hc1 _ IH Hc Hrec.
    apply IH; [congruence|].
    by apply (MakeStyle_classes_recorded d d1 conf name style st).
Qed.

(** X5.  With unified styles the class table never holds one style text
    under two class names. *)
Theorem MakeStyles_unify_one_class_per_style (calls : list (string * string))
    (conf : Conf.t) (d : Document.t) (sts : list Styling.t) :
  Conf.GenerateEmbeddedStylesheet conf = true →
  Conf.StylesheetUnifyStyles conf = true →
  MakeStyles (NewDocument (Some conf)) calls = Some (sts, d) →
  ∀ c1 c2 style,
    map_get (styles.classMap (Document.styles d)) c1 = Some style →
    map_get (styles.classMap (Document.styles d)) c2 = Some style →
    c1 = c2.
Proof.
  intros He Hu Hcalls.
  assert (classes_recorded d) as Hrec.
  { eapply (MakeStyles_classes_recorded calls _ d sts conf He Hu
              (NewDocument_wf _) Hcalls).
    - apply (NewDocument_conf (Some conf)).
    - apply NewDocument_classes_recorded. }
  intros c1 c2 style H1 H2. apply Hrec in H1, H2. congruence.
Qed.

Lemma MakeStyles_unify_one_class_per_style_witness :
  let d := NewDocument (Some (Conf.mk true true false false)) in
  let calls := [("a1", "fill:red"); ("a", "fill:green"); ("a", "fill:blue")] in
  map_get (styles.classMap (Document.styles (run_document d calls))) "a1"
  = Some "fill:blue" ∧ "a1" = "a1".
Proof.
  intros d calls.
  assert (map_get (styles.classMap (Document.styles (run_document d calls)))
                  "a1" = Some "fill:blue") as H by (vm_compute; reflexivity).
  split; [exact H|].
  apply (MakeStyles_unify_one_class_per_style calls
           (Conf.mk true true false false) (run_document d calls)
           (run_classes d calls)) with (style := "fill:blue").
  - reflexivity.
  - reflexivity.
  - vm_compute; reflexivity.
  - exact H.
  - exact H.
Defined.

(** ** Without unified styles *)

Lemma int_wrap_succ_ne (z : Z) : int_wrap (int_wrap z + 1) ≠ int_wrap z.
Proof.
  pose proof (int_wrap_range z) as Hr.
  destruct (decide (int_wrap z = int_max)) as [Hmax|Hne].
  - rewrite Hmax. vm_compute. discriminate.
  - rewrite int_wrap_small by lia. lia.
Qed.

Lemma Itoa_inj (i j : Z) : strconv.Itoa i = strconv.Itoa j → i = j.
Proof.
  intros H. apply (f_equal parse_int) in H.
  rewrite !parse_int_Itoa in H. by injection H.
Qed.

Lemma spec_rule_nonempty (scope : option string) (class style : string) :
  spec_rule scope class style ≠ "".
Proof.
  unfold spec_rule. intros H. apply append_eq_nil in H as [_ H]. done.
Qed.

Lemma NewDocument_no_defs (c : option Conf.t) : no_defs (NewDocument c).
Proof. intros style. by rewrite NewDocument_styles. Qed.

(** X6.  Without unified styles nothing is ever recorded in the style table,
    so every call registers a rule; two successive calls with the same
    arguments return two different class names and append two rules. *)
Theorem MakeStyle_no_unify_twice (d : Document.t) (conf : Conf.t)
    (name style : string) :
  wf_Document d →
  Document.conf d = Some conf →
  Conf.GenerateEmbeddedStylesheet conf = true →
  Conf.StylesheetUnifyStyles conf = false →
  no_defs d →
  ∃ c1 c2 d1 d2,
    MakeStyle d name style = Some (Styling.mk c1 "", d1) ∧
    MakeStyle d1 name style = Some (Styling.mk c2 "", d2) ∧
    c1 ≠ c2 ∧
    no_defs d2 ∧
    Document.Style d2
    = Document.Style d +:+ rule_separator d +:+
      spec_rule (rule_scope conf d) c1 style +:+ " " +:+
      spec_rule (rule_scope conf d) c2 style.
Proof.
  intros Hwf Hc He Hu Hno.
  destruct (MakeStyle_new d conf name style Hwf Hc He (Hno style))
    as (d1 & Hcall1 & Hc1 & Hid1 & Hn1 & _ & _ & Hcm1 & Hdm1 & HStyle1).
  destruct (MakeStyle_wf d name style Hwf) as (st & d1' & Hcall1' & Hwf1 & _).
  rewrite Hcall1 in Hcall1'. injection Hcall1' as _ <-.
  assert (no_defs d1) as Hno1.
  { intros k. rewrite Hdm1, Hu. simpl. apply Hno. }
  destruct (MakeStyle_new d1 conf name style Hwf1 Hc1 He (Hno1 style))
    as (d2 & Hcall2 & _ & _ & _ & _ & _ & _ & Hdm2 & HStyle2).
  assert (is_Some (map_get (styles.classMap (Document.styles d1)) name))
    as [old Hold].
  { rewrite Hcm1. case_decide; [done|].
    unfold assigned_class in *.
    destruct (map_get (styles.classMap (Document.styles d)) name); [done|].
    done. }
  exists (assigned_class d name), (assigned_class d1 name), d1, d2.
  split_and!; [done|done|..].
  - unfold assigned_class at 2. rewrite Hold, Hn1.
    unfold assigned_class, next_nConflict.
    destruct (map_get (styles.classMap (Document.styles d)) name).
    + intros Heq. apply String.app_inj, Itoa_inj in Heq.
      symmetry in Heq. by apply int_wrap_succ_ne in Heq.
    + intros Heq. symmetry in Heq.
      exact (append_ne_self _ _ (Itoa_nonempty _) Heq).
  - intros k. rewrite Hdm2, Hu. simpl. apply Hno1.
  - rewrite HStyle2, HStyle1, !append_assoc.
    assert (rule_separator d1 = " ") as ->.
    { unfold rule_separator. rewrite bool_decide_eq_true_2; [done|].
      rewrite HStyle1. intros H.
      apply append_eq_nil in H as [_ H]. apply append_eq_nil in H as [_ H].
      by apply spec_rule_nonempty in H. }
    assert (rule_scope conf d1 = rule_scope conf d) as ->.
    { unfold rule_scope. by rewrite Hid1. }
    done.
Qed.

Lemma MakeStyle_no_unify_twice_witness :
  ∃ c1 c2 d1 d2,
    MakeStyle (NewDocument (Some (Conf.mk true false false false)))
              "a" "fill:red" = Some (Styling.mk c1 "", d1) ∧
    MakeStyle d1 "a" "fill:red" = Some (Styling.mk c2 "", d2) ∧
    c1 ≠ c2.
Proof.
  destruct (MakeStyle_no_unify_twice
              (NewDocument (Some (Conf.mk true false false false)))
              (Conf.mk true false false false) "a" "fill:red")
    as (c1 & c2 & d1 & d2 & H1 & H2 & Hne & _).
  - wf_by_evaluation.
  - reflexivity.
  - reflexivity.
  - reflexivity.
  - intros style. reflexivity.
  - exists c1, c2, d1, d2. split; [exact H1|]. split; [exact H2|exact Hne].
Defined.

Lemma MakeStyle_no_defs (d d' : Document.t) (conf : Conf.t)
    (name style : string) (st : Styling.t) :
  wf_Document d →
  Document.conf d = Some conf →
  Conf.StylesheetUnifyStyles conf = false →
  MakeStyle d name style = Some (st, d') →
  no_defs d → no_defs d'.
Proof.
  intros Hwf Hc Hu Hcall Hno.
  destruct (MakeStyle_cases d d' conf name style st Hwf Hc Hcall)
    as [(_ & ->)|[(_ & _ & _ & ->)|(_ & _ & _ & _ & _ & Hdm)]]; [done..|].
  intros k. rewrite Hdm, Hu. simpl. apply Hno.
Qed.

(** ** [Styling.SetStyle] *)

(** X7.  [SetStyle] keeps the class and stores the style text without one
    trailing [;]: a text and the same text followed by [;] are stored
    alike when the text itself has no trailing [;], and a text without
    trailing [;] is stored as it is. *)
Theorem SetStyle_trims_one_separator (st : Styling.t) (style : string) :
  Styling.Class (Styling.SetStyle st style) = Styling.Class st ∧
  Styling.Style (Styling.SetStyle st (style +:+ ";")) = style ∧
  (strings.HasSuffix style ";" = false →
   Styling.SetStyle st (style +:+ ";") = Styling.SetStyle st style ∧
   Styling.Style (Styling.SetStyle st style) = style).
Proof.
  unfold Styling.SetStyle. simpl. split_and!; [done| |intros Hno; split].
  - apply TrimSuffix_append.
  - by rewrite TrimSuffix_append, TrimSuffix_no_suffix.
  - by apply TrimSuffix_no_suffix.
Qed.

Lemma SetStyle_trims_one_separator_witness :
  Styling.SetStyle Styling.zero "fill:red;"
  = Styling.SetStyle Styling.zero "fill:red" ∧
  Styling.Style (Styling.SetStyle Styling.zero "fill:red") = "fill:red".
Proof.
  apply (SetStyle_trims_one_separator Styling.zero "fill:red"). reflexivity.
Defined.

(** ** More on the attribute marshalers *)

Lemma mapM_parse_int_Itoa (ints : list Z) :
  mapM parse_int (strconv.Itoa <$> ints) = Some ints.
Proof.
  induction ints as [|i ints IH]; [done|].
  rewrite fmap_cons. cbn [mapM]. rewrite parse_int_Itoa. cbn [mbind option_bind].
  rewrite IH. done.
Qed.

Lemma space_fields_fmap {A} (f : A → string) (l : list A) :
  l ≠ [] →
  Forall (λ x, space_free (f x) = true) l →
  space_fields (String.concat " " (f <$> l)) = f <$> l.
Proof.
  intros Hne Hall. apply space_fields_concat.
  - by destruct l.
  - by apply Forall_fmap.
Qed.

(** X8.  [Ints.MarshalXMLAttr] never fails; the empty list gives the empty
    value, and the value of a non-empty list can be read back: cut at its
    spaces and parsed as decimal numerals it gives the list. *)
Theorem Ints_MarshalXMLAttr_decode (ints : list Z) (name : xml.Name) :
  ∃ a, Ints_MarshalXMLAttr ints name = Some (a, None) ∧
       xml.AttrName a = name ∧
       (ints = [] → xml.Value a = "") ∧
       (ints ≠ [] →
        length (space_fields (xml.Value a)) = length ints ∧
        mapM parse_int (space_fields (xml.Value a)) = Some ints).
Proof.
  eexists. split; [apply Ints_MarshalXMLAttr_eq|]. simpl.
  split_and!; [done|by intros ->|].
  intros Hne. rewrite space_fields_fmap; [|done|].
  - split; [by rewrite length_fmap|apply mapM_parse_int_Itoa].
  - apply Forall_forall. intros i _. apply Itoa_space_free.
Qed.

Lemma Ints_MarshalXMLAttr_decode_witness :
  ∃ a, Ints_MarshalXMLAttr [0; -5; 640; 480]%Z (xml.mkName "" "viewBox")
       = Some (a, None) ∧
       mapM parse_int (space_fields (xml.Value a)) = Some [0; -5; 640; 480]%Z.
Proof.
  destruct (Ints_MarshalXMLAttr_decode [0; -5; 640; 480]%Z
              (xml.mkName "" "viewBox")) as (a & Ha & _ & _ & Hdec).
  exists a. split; [exact Ha|]. apply Hdec. discriminate.
Defined.

Lemma Floats64_MarshalXMLAttr_eq
    (FormatFloat : float64 → ascii → Z → Z → string)
    (f : list float64) (name : xml.Name) :
  Floats64_MarshalXMLAttr FormatFloat f name
  = Some (xml.mkAttr name
            (String.concat " "
               ((λ v, FormatFloat v "g"%char (-1)%Z 64%Z) <$> f)), None).
Proof.
  unfold Floats64_MarshalXMLAttr. cbv zeta. rewrite for_range_fill_0.
  cbn [mbind option_bind]. by rewrite makeListAttr_eq.
Qed.

(** X9.  [Floats64.MarshalXMLAttr] never fails, whatever the formatter; the
    empty list gives the empty value, and when the formatted numbers
    contain no space, the value of a non-empty list cut at its spaces is
    the list of the formatted numbers, one per element and in order. *)
Theorem Floats64_MarshalXMLAttr_fields
    (FormatFloat : float64 → ascii → Z → Z → string)
    (f : list float64) (name : xml.Name) :
  let ff := λ v, FormatFloat v "g"%char (-1)%Z 64%Z in
  ∃ a, Floats64_MarshalXMLAttr FormatFloat f name = Some (a, None) ∧
       xml.AttrName a = name ∧
       (f = [] → xml.Value a = "") ∧
       (f ≠ [] → Forall (λ v, space_free (ff v) = true) f →
        space_fields (xml.Value a) = ff <$> f).
Proof.
  intros ff. eexists. split; [apply Floats64_MarshalXMLAttr_eq|]. simpl.
  split_and!; [done|by intros ->|].
  intros Hne Hall. by apply space_fields_fmap.
Qed.

Lemma Floats64_MarshalXMLAttr_fields_witness :
  ∃ a, Floats64_MarshalXMLAttr FormatFloat_integral
         [float64_of_int 0; float64_of_int 90; float64_of_int (-45)]
         (xml.mkName "" "rotate") = Some (a, None) ∧
       space_fields (xml.Value a) = ["0"; "90"; "-45"].
Proof.
  destruct (Floats64_MarshalXMLAttr_fields FormatFloat_integral
              [float64_of_int 0; float64_of_int 90; float64_of_int (-45)]
              (xml.mkName "" "rotate")) as (a & Ha & _ & _ & Hf).
  exists a. split; [exact Ha|]. rewrite Hf.
  - reflexivity.
  - discriminate.
  - repeat constructor.
Defined.

(** X10.  Appending a point with [AddInt] appends its pair to the serialized
    value, after one space when there were points before; the points
    before keep their place. *)
Theorem Points_AddInt_MarshalXMLAttr
    (FormatFloat : float64 → ascii → Z → Z → string)
    (pts : Points) (x y : Z) (name : xml.Name) :
  let ff := λ v, FormatFloat v "g"%char (-1)%Z 64%Z in
  let pair := ff (float64_of_int x) +:+ "," +:+ ff (float64_of_int y) in
  ∃ a a',
    Points_MarshalXMLAttr FormatFloat pts name = Some (a, None) ∧
    Points_MarshalXMLAttr FormatFloat (Points_AddInt pts x y) name
    = Some (a', None) ∧
    xml.Value a'
    = match pts with
      | [] => pair
      | _ :: _ => xml.Value a +:+ " " +:+ pair
      end ∧
    take (length pts) (Points_AddInt pts x y) = pts ∧
    length (Points_AddInt pts x y) = S (length pts).
Proof.
  intros ff pair. eexists _, _.
  split; [apply Points_MarshalXMLAttr_eq|].
  split; [apply Points_MarshalXMLAttr_eq|]. cbn [xml.Value].
  unfold Points_AddInt. rewrite fmap_app.
  change (spec_pair_string FormatFloat <$> [(float64_of_int x, float64_of_int y)])
    with [pair].
  rewrite concat_snoc.
  split_and!.
  - by destruct pts.
  - by rewrite take_app_length.
  - rewrite length_app. simpl. lia.
Qed.





(** X12.  A [Length] marshals, without error, to its formatted number
    followed by its unit; trimming the unit gives the formatted number
    back, and two lengths of different kinds with the same formatted
    number never give the same value. *)
Theorem Length_MarshalXMLAttr_unit
    (FormatFloat : float64 → ascii → Z → Z → string)
    (l l' : Length) (name : xml.Name) :
  let ff := λ v, FormatFloat v "g"%char (-1)%Z 64%Z in
  let value := λ l, xml.Value (fst (Length_MarshalXMLAttr FormatFloat l name)) in
  Length_MarshalXMLAttr FormatFloat l name
  = (xml.mkAttr name (ff (Length_number l) +:+ Length_unit l), None) ∧
  strings.TrimSuffix (value l) (Length_unit l) = ff (Length_number l) ∧
  (ff (Length_number l) = ff (Length_number l') →
   value l = value l' → Length_unit l = Length_unit l').
Proof.
  intros ff value.
  assert (∀ l, Length_MarshalXMLAttr FormatFloat l name
     = (xml.mkAttr name (ff (Length_number l) +:+ Length_unit l), None)) as Heq.
  { by intros []. }
  unfold value. rewrite !Heq. cbn [fst xml.Value]. split_and!.
  - done.
  - apply TrimSuffix_append.
  - intros -> H. by apply String.app_inj in H.
Qed.

Lemma Length_MarshalXMLAttr_unit_witness :
  Length_unit (emUnits (float64_of_int 2))
  = Length_unit (emUnits (float64_of_int 2)).
Proof.
  apply (Length_MarshalXMLAttr_unit FormatFloat_integral
           (emUnits (float64_of_int 2)) (emUnits (float64_of_int 2))
           (xml.mkName "" "dx")); reflexivity.
Defined.

(** ** The element list *)

Lemma apply_op_snoc (el : ElemList) (op : ElemOp) :
  ∃ e, apply_op el op = el ++ [e] ∧
       XMLName e
       = match op with
         | OpLineInt _ _ _ _ => "line"
         | OpRectInt _ _ _ _ => "rect"
         | OpCircleInt _ _ _ | OpEllipseInt _ _ _ _ => "circle"
         | OpPolyLine => "polyline"
         | OpPolygon => "polygon"
         | OpPath _ => "path"
         | OpUseObjectInt _ _ _ => "use"
         | OpTitle _ => "title"
         | OpGroup => "g"
         | OpDefs => "defs"
         end ∧
       ∀ h, op_handle el op = Some h → h = length el.
Proof.
  destruct op; (eexists; split; [reflexivity|]; split; [reflexivity|]);
    simpl; congruence.
Qed.

(** X13.  The constructors only append: after any sequence of calls the
    elements that were in the list are still there, in place, followed by
    one element per call in call order, each with the tag of its struct
    ([circle] for [EllipseInt] too); the pointer a call returns is to the
    element it appended, and later calls do not move that element. *)
Theorem constructors_append_in_order (ops : list ElemOp) (el : ElemList) :
  let el' := foldl apply_op el ops in
  length el' = length el + length ops ∧
  take (length el) el' = el ∧
  XMLName <$> drop (length el) el'
  = (λ op, match op with
           | OpLineInt _ _ _ _ => "line"
           | OpRectInt _ _ _ _ => "rect"
           | OpCircleInt _ _ _ | OpEllipseInt _ _ _ _ => "circle"
           | OpPolyLine => "polyline"
           | OpPolygon => "polygon"
           | OpPath _ => "path"
           | OpUseObjectInt _ _ _ => "use"
           | OpTitle _ => "title"
           | OpGroup => "g"
           | OpDefs => "defs"
           end) <$> ops ∧
  ∀ op h, op_handle el op = Some h →
          foldl apply_op (apply_op el op) ops !! h = apply_op el op !! h ∧
          is_Some (apply_op el op !! h).
Proof.
  cbv zeta. revert el. induction ops as [|op ops IH]; intros el.
  - simpl. split_and!.
    + lia.
    + by rewrite take_ge.
    + by rewrite drop_ge.
    + intros op h Hh. split; [done|].
      destruct (apply_op_snoc el op) as (e & -> & _ & Hpos).
      rewrite (Hpos h Hh). rewrite list_lookup_middle by done. by eexists.
  - cbn [foldl].
    destruct (apply_op_snoc el op) as (e & Hop & Htag & _). rewrite Hop.
    destruct (IH (el ++ [e])) as (Hlen & Htake & Htags & _).
    rewrite length_app in Hlen, Htake, Htags. simpl in Hlen, Htake, Htags.
    split_and!.
    + simpl. lia.
    + apply (f_equal (take (length el))) in Htake.
      rewrite take_take in Htake.
      rewrite Nat.min_l in Htake by lia.
      by rewrite take_app_length in Htake.
    + assert (drop (length el) (foldl apply_op (el ++ [e]) ops)
              = e :: drop (length el + 1) (foldl apply_op (el ++ [e]) ops))
        as ->.
      { rewrite <- (take_drop (length el + 1) (foldl _ _ _)) at 1.
        by rewrite Htake, <- app_assoc, drop_app_length. }
      rewrite fmap_cons, Htags. simpl. by rewrite Htag.
    + intros op' h Hh.
      destruct (apply_op_snoc el op') as (e' & Hop' & _ & Hpos).
      rewrite Hop', (Hpos h Hh).
      destruct (IH ((el ++ [e']) ++ [e])) as (_ & Htake' & _).
      split; [|rewrite list_lookup_middle by done; by eexists].
      destruct (apply_op_snoc (el ++ [e']) op) as (e2 & -> & _).
      destruct (IH ((el ++ [e']) ++ [e2])) as (_ & Htake2 & _).
      transitivity (take (length ((el ++ [e']) ++ [e2]))
                        (foldl apply_op ((el ++ [e']) ++ [e2]) ops)
                    !! length el).
      { symmetry. apply lookup_take_lt. rewrite !length_app. simpl. lia. }
      rewrite Htake2, <- app_assoc. simpl.
      by rewrite !list_lookup_middle by done.
Qed.

(** ** Text data *)

Section TextDataProperties.

  Variable respond : list EncoderCall → EncoderCall → option error.

Lemma rec_MarshalXML_cons (d : TextDatum TextObject.t) (data : TextData)
    (log : list EncoderCall) :
  rec_MarshalXML respond (d :: data) log
  = match respond (log ++ datum_calls_before d) (datum_checked_call d) with
    | Some err => (log ++ datum_calls d, Some err)
    | None => rec_MarshalXML respond data (log ++ datum_calls d)
    end.
Proof.
  unfold rec_MarshalXML. cbn [TextData_MarshalXML].
  destruct d as [x|x]; cbn [datum_calls datum_calls_before datum_checked_call].
  - unfold rec_EncodeToken. rewrite app_nil_r. by destruct (respond _ _).
  - unfold rec_Encode, rec_Indent. case_bool_decide.
    + rewrite <- !app_assoc. simpl. by destruct (respond _ _).
    + rewrite app_nil_r. by destruct (respond _ _).
Qed.

(** X14.  Whatever the encoder answers, [TextData.MarshalXML] makes the
    calls of a prefix of the data, group by group and in order.  The
    checked call ([EncodeToken] or [Encode]) of every group but the last
    one made is answered without error.  The result is nil exactly when
    the whole data was gone through and every checked call was answered
    without error; otherwise it is the error answered to the checked call
    of the last group made, the first one answered by an error, and
    nothing of the data after that group is encoded.  A group is never
    cut: the [Indent] call that restores the indentation follows the
    [Encode] of a span even when that [Encode] fails. *)
Theorem TextData_MarshalXML_calls (data : TextData) (log : list EncoderCall) :
  ∃ encoded rest,
    data = encoded ++ rest ∧
    fst (rec_MarshalXML respond data log) = log ++ (encoded ≫= datum_calls) ∧
    (∀ before d after,
       encoded = before ++ d :: after → after ≠ [] →
       respond (log ++ (before ≫= datum_calls) ++ datum_calls_before d)
               (datum_checked_call d) = None) ∧
    match snd (rec_MarshalXML respond data log) with
    | None =>
      rest = [] ∧
      ∀ before d after,
        data = before ++ d :: after →
        respond (log ++ (before ≫= datum_calls) ++ datum_calls_before d)
                (datum_checked_call d) = None
    | Some err =>
      ∃ before d,
        encoded = before ++ [d] ∧
        respond (log ++ (before ≫= datum_calls) ++ datum_calls_before d)
                (datum_checked_call d) = Some err
    end.
Proof.
  revert log. induction data as [|d data IH]; intros log.
  - exists [], []. simpl. rewrite app_nil_r. split_and!; try done.
    + intros [|??] ???; done.
    + intros [|??] ???; done.
  - rewrite rec_MarshalXML_cons.
    destruct (respond (log ++ datum_calls_before d) (datum_checked_call d))
      as [err|] eqn:Hresp.
    + exists [d], data. cbn [fst snd]. split_and!.
      * done.
      * simpl. by rewrite app_nil_r.
      * intros [|? [|??]] d' after Heq Hne; by simplify_eq/=.
      * exists [], d. by split.
    + destruct (IH (log ++ datum_calls d))
        as (encoded & rest & -> & Hlog & Hok & Hres).
      exists (d :: encoded), rest. split_and!.
      * done.
      * rewrite Hlog. simpl. by rewrite <- app_assoc.
      * intros [|d0 before] d' after Heq Hne; simplify_eq/=.
        -- done.
        -- rewrite <- (Hok before d' after eq_refl Hne).
           f_equal. by rewrite <- !app_assoc.
      * destruct (snd (rec_MarshalXML respond (encoded ++ rest)
                                      (log ++ datum_calls d))) as [err|].
        -- destruct Hres as (before & d' & -> & Hr).
           exists (d :: before), d'. split; [done|].
           simpl. rewrite <- Hr. f_equal. by rewrite <- !app_assoc.
        -- destruct Hres as [-> Hall]. split; [done|].
           intros [|d0 before] d' after Heq; simplify_eq/=.
           ++ done.
           ++ rewrite <- (Hall before d' after); [|done].
              f_equal. by rewrite <- !app_assoc.
Qed.

End TextDataProperties.

Lemma TextData_MarshalXML_calls_witness :
  let ts := TextObject.XMLIndentHint TextObject.zero "" "  " in
  let respond := λ (_ : list EncoderCall) c,
    match c with CallEncode _ => Some (errorString "encode") | _ => None end in
  ∃ encoded,
    fst (rec_MarshalXML respond [chardata "a"; p_tspan ts; chardata "b"] [])
    = encoded ≫= datum_calls.
Proof.
  intros ts respond.
  destruct (TextData_MarshalXML_calls respond
              [chardata "a"; p_tspan ts; chardata "b"] [])
    as (encoded & _ & _ & Hlog & _).
  exists encoded. exact Hlog.
Defined.

Lemma indent_calls_app (l1 l2 : list EncoderCall) :
  indent_calls (l1 ++ l2) = indent_calls l1 ++ indent_calls l2.
Proof. unfold indent_calls. by rewrite bind_app. Qed.

Lemma last_indent_datum_calls (encoded : TextData) (prefix indent : string) :
  last (indent_calls (encoded ≫= datum_calls)) = Some (prefix, indent) →
  indent ≠ "" ∧
  ∃ x, p_tspan x ∈ encoded ∧ TextObject.restorePrefix x = prefix ∧
       TextObject.restoreIndent x = indent.
Proof.
  induction encoded as [|d encoded IH] using rev_ind; [done|].
  rewrite bind_app, indent_calls_app, last_app.
  assert (indent_calls ([d] ≫= datum_calls) = []
          ∨ ∃ x, d = p_tspan x ∧ TextObject.restoreIndent x ≠ "" ∧
                 last (indent_calls ([d] ≫= datum_calls))
                 = Some (TextObject.restorePrefix x, TextObject.restoreIndent x))
    as [->|(x & -> & Hx & ->)].
  { destruct d as [x|x]; simpl; [by left|].
    case_bool_decide; [right|by left]. by exists x. }
  - simpl. intros H. destruct (IH H) as (Hi & x & Hin & Hp & Hr).
    split; [done|]. exists x. split; [|done]. apply elem_of_app. by left.
  - intros [= <- <-]. split; [done|]. exists x. split; [|done].
    apply elem_of_app. right. by apply list_elem_of_singleton.
Qed.

Lemma rec_MarshalXML_log
    (respond : list EncoderCall → EncoderCall → option error)
    (data : TextData) (log : list EncoderCall) :
  ∃ encoded rest,
    data = encoded ++ rest ∧
    fst (rec_MarshalXML respond data log) = log ++ (encoded ≫= datum_calls).
Proof.
  revert log. induction data as [|d data IH]; intros log.
  - exists [], []. simpl. by rewrite app_nil_r.
  - rewrite rec_MarshalXML_cons.
    destruct (respond (log ++ datum_calls_before d) (datum_checked_call d)).
    + exists [d], data. simpl. by rewrite app_nil_r.
    + destruct (IH (log ++ datum_calls d)) as (encoded & rest & -> & ->).
      exists (d :: encoded), rest. simpl. by rewrite <- app_assoc.
Qed.

(** X15.  [TextData.MarshalXML] never leaves the indentation switched off:
    whatever the encoder answers, if it calls [Indent] at all, the last of
    these calls restores the non-empty indentation of a span of the
    data. *)
Theorem TextData_MarshalXML_indent_restored
    (respond : list EncoderCall → EncoderCall → option error)
    (data : TextData) (log : list EncoderCall) :
  ∃ calls,
    fst (rec_MarshalXML respond data log) = log ++ calls ∧
    ∀ prefix indent,
      last (indent_calls calls) = Some (prefix, indent) →
      indent ≠ "" ∧
      ∃ x, p_tspan x ∈ data ∧ TextObject.restorePrefix x = prefix ∧
           TextObject.restoreIndent x = indent.
Proof.
  destruct (rec_MarshalXML_log respond data log)
    as (encoded & rest & -> & Hlog).
  exists (encoded ≫= datum_calls). split; [done|].
  intros prefix indent Hlast.
  destruct (last_indent_datum_calls encoded prefix indent Hlast)
    as (Hi & x & Hin & Hp & Hr).
  split; [done|]. exists x. split; [|done]. apply elem_of_app. by left.
Qed.

Lemma TextData_MarshalXML_indent_restored_witness :
  let ts := TextObject.XMLIndentHint TextObject.zero "" "  " in
  let respond := λ (_ : list EncoderCall) c,
    match c with CallEncode _ => Some (errorString "encode") | _ => None end in
  rec_MarshalXML respond [chardata "a"; p_tspan ts; chardata "b"] []
  = ([CallEncodeToken "a"; CallIndent "" ""; CallEncode ts; CallIndent "" "  "],
     Some (errorString "encode")) ∧
  "  " ≠ "".
Proof.
  intros ts respond. split; [reflexivity|].
  destruct (TextData_MarshalXML_indent_restored respond
              [chardata "a"; p_tspan ts; chardata "b"] [])
    as (calls & Hcalls & Hlast).
  assert (calls = [CallEncodeToken "a"; CallIndent "" ""; CallEncode ts;
                   CallIndent "" "  "]) as ->.
  { symmetry. exact Hcalls. }
  apply (Hlast "" "  "). reflexivity.
Defined.

(** ** Building text objects *)

(** X16.  A span takes the indentation hint its parent has when [AddSpan]
    is called, and keeps it: a hint given to the parent afterwards does
    not reach the spans that exist already.  The span starts with the
    content as its only data, or with no data when the content is empty,
    and the data the parent had stay in front of it. *)
Theorem AddSpan_inherits_hint (o : TextObject.t)
    (content prefix indent : string) :
  let hinted := TextObject.XMLIndentHint o prefix indent in
  (∃ ts,
     TextObject.span_at (fst (TextObject.AddSpan hinted content))
                        (snd (TextObject.AddSpan hinted content)) = Some ts ∧
     TextObject.restorePrefix ts = prefix ∧
     TextObject.restoreIndent ts = indent ∧
     TextObject.Data ts = if bool_decide (content = "") then []
                          else [chardata content]) ∧
  (∃ ts,
     TextObject.span_at
       (TextObject.XMLIndentHint (fst (TextObject.AddSpan o content))
                                 prefix indent)
       (snd (TextObject.AddSpan o content)) = Some ts ∧
     TextObject.restorePrefix ts = TextObject.restorePrefix o ∧
     TextObject.restoreIndent ts = TextObject.restoreIndent o) ∧
  take (length (TextObject.Data o))
       (TextObject.Data (fst (TextObject.AddSpan o content)))
  = TextObject.Data o ∧
  length (TextObject.Data (fst (TextObject.AddSpan o content)))
  = S (length (TextObject.Data o)).
Proof.
  intros hinted. unfold TextObject.AddSpan, TextObject.span_at. cbn.
  rewrite !list_lookup_middle by done. split_and!.
  - eexists. split; [done|]. by case_bool_decide; case_bool_decide.
  - eexists. split; [done|]. by case_bool_decide.
  - by rewrite take_app_length.
  - rewrite length_app. simpl. lia.
Qed.

Lemma AddSpan_spec (o : TextObject.t) (content : string) :
  ∃ ts,
    TextObject.Data (fst (TextObject.AddSpan o content))
    = TextObject.Data o ++ [p_tspan ts] ∧
    snd (TextObject.AddSpan o content) = length (TextObject.Data o) ∧
    TextObject.restorePrefix ts = TextObject.restorePrefix o ∧
    TextObject.restoreIndent ts = TextObject.restoreIndent o.
Proof.
  eexists. split; [reflexivity|]. split; [reflexivity|]. by cbn.
Qed.

(** X17.  In the calls of [TextData.MarshalXML] on an encoder that reports
    no error, a span added while the parent has an indentation hint is
    encoded between [Indent("", "")] and the [Indent] that restores the
    hint, and a text added by [AddText] is one [EncodeToken] call, also
    when it is empty. *)
Theorem AddSpan_AddText_calls (o : TextObject.t) (content : string)
    (log : list EncoderCall) :
  let respond := λ (_ : list EncoderCall) (_ : EncoderCall), @None error in
  TextObject.restoreIndent o ≠ "" →
  ∃ ts,
    TextObject.span_at (fst (TextObject.AddSpan o content))
                       (snd (TextObject.AddSpan o content)) = Some ts ∧
    rec_MarshalXML respond
      (TextObject.Data (fst (TextObject.AddSpan o content))) log
    = (fst (rec_MarshalXML respond (TextObject.Data o) log)
       ++ [CallIndent "" ""; CallEncode ts;
           CallIndent (TextObject.restorePrefix o) (TextObject.restoreIndent o)],
       None) ∧
    rec_MarshalXML respond (TextObject.Data (TextObject.AddText o content)) log
    = (fst (rec_MarshalXML respond (TextObject.Data o) log)
       ++ [CallEncodeToken content], None).
Proof.
  intros respond Hhint.
  assert (∀ data log, rec_MarshalXML respond data log
                      = (log ++ (data ≫= datum_calls), None)) as Hall.
  { induction data as [|d data IH]; intros log'.
    - simpl. by rewrite app_nil_r.
    - rewrite rec_MarshalXML_cons. subst respond. cbv beta.
      rewrite IH. simpl. by rewrite <- app_assoc. }
  destruct (AddSpan_spec o content) as (ts & HData & Hpos & Hp & Hi).
  exists ts. unfold TextObject.span_at. rewrite HData, Hpos.
  rewrite list_lookup_middle by done. split; [done|].
  rewrite !Hall. cbn [fst].
  change (TextObject.Data (TextObject.AddText o content))
    with (TextObject.Data o ++ [chardata content]).
  rewrite !bind_app, <- !app_assoc. split; [|done].
  do 3 f_equal. simpl. rewrite app_nil_r, Hi, Hp.
  by rewrite bool_decide_eq_true_2.
Qed.

Lemma AddSpan_AddText_calls_witness :
  let o := TextObject.XMLIndentHint TextObject.zero "" "  " in
  ∃ ts,
    rec_MarshalXML (λ _ _, None)
      (TextObject.Data (fst (TextObject.AddSpan o "x"))) []
    = ([CallIndent "" ""; CallEncode ts; CallIndent "" "  "], None).
Proof.
  intros o.
  destruct (AddSpan_AddText_calls o "x" []) as (ts & _ & H & _).
  - discriminate.
  - exists ts. exact H.
Defined.

(** ** Runs of calls from a new document *)

Lemma MakeStyles_frame_witness :
  let d := Document.SetID (NewDocument (Some (Conf.mk true true true false)))
                          "doc" in
  let calls := [("a", "fill:red;"); ("b", "fill:blue")] in
  Document.Container (run_document d calls) = Document.Container d ∧
  ∃ suffix, Document.Style (run_document d calls) = Document.Style d +:+ suffix.
Proof.
  intros d calls.
  destruct (MakeStyles_frame calls d (run_document d calls)
              (run_classes d calls))
    as (_ & _ & _ & _ & Hcont & _ & _ & Hsfx).
  - vm_compute; reflexivity.
  - split; [exact Hcont|exact Hsfx].
Defined.

(** X18.  On a document made by [NewDocument], with any configuration or
    none, every run of [MakeStyle] calls returns, one [Styling] per call:
    no call dereferences a nil pointer or writes to a nil map, also when
    the caller sets the identifier or the stylesheet text in between. *)
Theorem NewDocument_MakeStyles_total (c : option Conf.t)
    (calls1 calls2 : list (string * string)) (id style : string) :
  ∃ sts1 d1 sts2 d2,
    MakeStyles (NewDocument c) calls1 = Some (sts1, d1) ∧
    MakeStyles (Document.with_Style (Document.SetID d1 id) style) calls2
    = Some (sts2, d2) ∧
    length sts1 = length calls1 ∧ length sts2 = length calls2 ∧
    wf_Document d2.
Proof.
  destruct (MakeStyles_total (NewDocument c) calls1 (NewDocument_wf c))
    as (sts1 & d1 & H1 & Hwf1 & Hlen1).
  destruct (MakeStyles_total (Document.with_Style (Document.SetID d1 id) style)
              calls2) as (sts2 & d2 & H2 & Hwf2 & Hlen2).
  { by apply with_Style_wf, SetID_wf. }
  by exists sts1, d1, sts2, d2.
Qed.

Lemma constructors_append_in_order_witness :
  let el := fst (Group []) in
  let ops := [OpCircleInt 1 2 3; OpTitle "t"] in
  foldl apply_op (apply_op el (OpEllipseInt 0 0 2 1)) ops !! 1
  = apply_op el (OpEllipseInt 0 0 2 1) !! 1 ∧
  XMLName <$> foldl apply_op el (OpEllipseInt 0 0 2 1 :: ops)
  = ["g"; "circle"; "circle"; "title"].
Proof.
  intros el ops. split; [|reflexivity].
  destruct (constructors_append_in_order ops el) as (_ & _ & _ & Hh).
  apply (Hh (OpEllipseInt 0 0 2 1) 1). reflexivity.
Defined.

(** X19.  Over a run of [MakeStyle] calls the conflict counter never
    decreases and grows by at most one per call, as long as it stays below
    the largest [int]. *)
Theorem MakeStyles_counter_monotone (calls : list (string * string))
    (d d' : Document.t) (sts : list Styling.t) :
  wf_Document d →
  MakeStyles d calls = Some (sts, d') →
  (styles.nConflict (Document.styles d) + Z.of_nat (length calls) ≤ int_max)%Z →
  (styles.nConflict (Document.styles d)
   ≤ styles.nConflict (Document.styles d')
   ≤ styles.nConflict (Document.styles d) + Z.of_nat (length calls))%Z.
Proof. apply MakeStyles_nConflict_mono. Qed.

Lemma MakeStyles_counter_monotone_witness :
  let d := NewDocument (Some (Conf.mk true false false false)) in
  let calls := [("a", "fill:red;"); ("a", "fill:blue"); ("a", "fill:green")] in
  (0 ≤ styles.nConflict (Document.styles (run_document d calls)) ≤ 0 + 3)%Z.
Proof.
  intros d calls.
  apply (MakeStyles_counter_monotone calls d (run_document d calls)
           (run_classes d calls)).
  - wf_by_evaluation.
  - vm_compute; reflexivity.
  - vm_compute. discriminate.
Defined.
